(** * wakitsu: watch-progress synchronisation, verified against its source

    A shallow embedding of [src/lib/watch.ts], in the revision that keeps
    file bindings and evicts completed series ([saveAnimeProgress]), and of
    the parts of [src/lib/utils.ts] it calls: the fansub file-name parser,
    the candidate file filter, the cache resolver, the progress synchroniser
    and the file relocator.  [kitsu.ts], [config.ts] and the printer are not
    among the sources; what watch.ts needs of them is modelled from the
    specification and marked so.

    Conventions of the embedding.
    - A JavaScript string is a [string] whose characters are the code units
      U+0000..U+00FF; [toLowerCase], the white-space class and the line
      terminators are the restrictions of the JavaScript ones to that range.
    - A JavaScript number is a [num]: an integer or [NaN].
    - [T | undefined] is [option T].
    - Objects that the program aliases live in a heap and are named by their
      address; arrays of objects are lists of addresses. *)

From Stdlib Require Import ZArith Ascii String List DecimalString Bool Lia.
From Stdlib Require DecimalZ.
From stdpp Require Import base option list gmap strings.

(** ** JavaScript strings *)

Module Js.

Definition code (c : ascii) : nat := nat_of_ascii c.

Definition inRange (lo hi : nat) (c : ascii) : bool :=
  (lo <=? code c)%nat && (code c <=? hi)%nat.

Definition isCode (n : nat) (c : ascii) : bool := (code c =? n)%nat.

(** [\d] *)
Definition isDigit (c : ascii) : bool := inRange 48 57 c.

(** [\w]: letters, digits and the underscore. *)
Definition isWordChar (c : ascii) : bool :=
  inRange 97 122 c || inRange 65 90 c || isDigit c || isCode 95 c.

(** [\s]: TAB, LF, VT, FF, CR, SP and NBSP. *)
Definition isWhiteSpace (c : ascii) : bool :=
  inRange 9 13 c || isCode 32 c || isCode 160 c.

(** [.]: every character but the line terminators LF and CR. *)
Definition isNotLineTerminator (c : ascii) : bool :=
  negb (isCode 10 c || isCode 13 c).

Definition isUpper (c : ascii) : bool :=
  inRange 65 90 c || (inRange 192 222 c && negb (isCode 215 c)).

Definition toLowerChar (c : ascii) : ascii :=
  if isUpper c then ascii_of_nat (code c + 32) else c.

(** [String.prototype.toLowerCase] *)
Fixpoint toLowerCase (s : string) : string :=
  match s with
  | EmptyString => EmptyString
  | String c s' => String (toLowerChar c) (toLowerCase s')
  end.

(** [String.prototype.includes] *)
Fixpoint includes (s t : string) : bool :=
  String.prefix t s ||
  match s with
  | EmptyString => false
  | String _ s' => includes s' t
  end.

(** [s[s.length - 1]], [None] for the empty string. *)
Fixpoint lastChar (s : string) : option ascii :=
  match s with
  | EmptyString => None
  | String c EmptyString => Some c
  | String _ s' => lastChar s'
  end.

(** [String.prototype.substring(start, end)]: both indices are clamped to
    [0, length] and swapped when [start > end]. *)
Definition substring (s : string) (start stop : Z) : string :=
  let len := Z.of_nat (String.length s) in
  let a := Z.max 0 (Z.min start len) in
  let b := Z.max 0 (Z.min stop len) in
  let lo := Z.min a b in
  let hi := Z.max a b in
  String.substring (Z.to_nat lo) (Z.to_nat (hi - lo)) s.

(** [s.split(c)[0]] for a one-character separator [c]. *)
Fixpoint splitHead (c : ascii) (s : string) : string :=
  match s with
  | EmptyString => EmptyString
  | String x s' => if Ascii.eqb x c then EmptyString else String x (splitHead c s')
  end.

(** A string is truthy when it is not empty. *)
Definition truthyStr (s : string) : bool :=
  match s with EmptyString => false | _ => true end.

(** Case-insensitive containment, the way the specification words it: both
    sides are compared in lower case. *)
Definition includesCI (s t : string) : bool :=
  includes (toLowerCase s) (toLowerCase t).

(** ** JavaScript numbers *)

Inductive num : Type :=
| NaN
| Num (z : Z).

(** Truthiness of a number: every number but [0] and [NaN]. *)
Definition truthy (n : num) : bool :=
  match n with
  | NaN => false
  | Num z => negb (z =? 0)%Z
  end.

(** [a || b] on numbers. *)
Definition orElse (a b : num) : num := if truthy a then a else b.

(** [a > b] *)
Definition gt (a b : num) : bool :=
  match a, b with
  | Num x, Num y => (y <? x)%Z
  | _, _ => false
  end.

(** [a == b] between a number and a number that may be [null] or
    [undefined]: a number is never loosely equal to either, and [NaN] is
    equal to nothing. *)
Definition looseEq (a : num) (b : option num) : bool :=
  match a, b with
  | Num x, Some (Num y) => (x =? y)%Z
  | _, _ => false
  end.

(** [a ?? b] *)
Definition nullish {A} (a : option A) (b : A) : A :=
  match a with Some x => x | None => b end.

Fixpoint digitsValue (acc : Z) (s : string) : option Z :=
  match s with
  | EmptyString => Some acc
  | String c s' =>
      if isDigit c
      then digitsValue (10 * acc + Z.of_nat (code c - 48)) s'
      else None
  end.

(** [Number(s)] on the strings the program converts: the empty string is
    [0], a run of decimal digits is its value, and a token that holds any
    other character (the [v] of [07v2], the [S] and [E] of [S01E07]) is
    [NaN].  Signs, fractions, exponents, radix prefixes and surrounding
    white space are outside this model, and so are the runs of digits whose
    value a double does not hold exactly; [isDecimal] below is the domain on
    which the model is [Number]. *)
Definition Number (s : string) : num :=
  match digitsValue 0 s with
  | Some z => Num z
  | None => NaN
  end.

(** The strings [Number] is exact on: decimal digits only, the empty string
    included, of a value up to [2^53]. *)
Definition isDecimal (s : string) : bool :=
  match digitsValue 0 s with
  | Some z => (z <=? 2 ^ 53)%Z
  | None => false
  end.

(** Template-literal rendering of a number. *)
Definition numToString (n : num) : string :=
  match n with
  | NaN => "NaN"
  | Num z => NilEmpty.string_of_int (Z.to_int z)
  end.

End Js.

Import Js.

(** ** Regular expressions

    A backtracking matcher in continuation-passing style, the shape
    ECMAScript gives its own semantics: a matcher takes the rest of the
    input, the captures so far and a continuation, and alternatives are
    tried in priority order.  Quantifiers are greedy. *)

Module RegExp.

Inductive regex : Type :=
| Atom (p : ascii -> bool)
| Cat (r1 r2 : regex)
| Alt (r1 r2 : regex)
| Rep (p : ascii -> bool) (lo : nat) (hi : option nat)
| Opt (r : regex)
| Group (n : nat) (r : regex).

(** Captures by group number; [None] is [undefined]. *)
Abbreviation captures := (list (option string)) (only parsing).

Definition isZero (hi : option nat) : bool :=
  match hi with Some O => true | _ => false end.

(** [p{lo,hi}] over a character class: take as many characters as allowed,
    give them back one at a time. *)
Fixpoint repeatMatcher {R} (p : ascii -> bool) (lo : nat) (hi : option nat)
    (s : string) (k : string -> option R) : option R :=
  let stop := match lo with O => k s | S _ => None end in
  match s with
  | String c s' =>
      if p c && negb (isZero hi) then
        match repeatMatcher p (Nat.pred lo) (Nat.pred <$> hi) s' k with
        | Some x => Some x
        | None => stop
        end
      else stop
  | EmptyString => stop
  end.

(** The text consumed between [s] and its suffix [s']. *)
Definition consumed (s s' : string) : string :=
  String.substring 0 (String.length s - String.length s') s.

Fixpoint matcher {R} (r : regex) (s : string) (caps : captures)
    (k : string -> captures -> option R) : option R :=
  match r with
  | Atom p =>
      match s with
      | String c s' => if p c then k s' caps else None
      | EmptyString => None
      end
  | Cat r1 r2 => matcher r1 s caps (fun s' caps' => matcher r2 s' caps' k)
  | Alt r1 r2 =>
      match matcher r1 s caps k with
      | Some x => Some x
      | None => matcher r2 s caps k
      end
  | Rep p lo hi => repeatMatcher p lo hi s (fun s' => k s' caps)
  | Opt r' =>
      match matcher r' s caps k with
      | Some x => Some x
      | None => k s caps
      end
  | Group n r' =>
      matcher r' s caps
        (fun s' caps' => k s' (<[n := Some (consumed s s')]> caps'))
  end.

(** [re.exec(s)] for a pattern anchored with [^] and a fresh [lastIndex]:
    the array of the whole match followed by the [groups] captures. *)
Definition exec (r : regex) (groups : nat) (s : string) : option captures :=
  matcher r s (replicate (S groups) None)
    (fun s' caps => Some (<[0 := Some (consumed s s')]> caps)).

Definition lit (c : ascii) : ascii -> bool := Ascii.eqb c.

(** A literal letter under the [i] flag. *)
Definition litI (c : ascii) : ascii -> bool :=
  fun x => Ascii.eqb (toLowerChar x) (toLowerChar c).

End RegExp.

Import RegExp.

Declare Scope regex_scope.
Delimit Scope regex_scope with re.
Bind Scope regex_scope with regex.
Infix "⋅" := Cat (at level 41, right associativity) : regex_scope.
Infix "∣" := Alt (at level 42, right associativity) : regex_scope.

(** ** utils.ts: the file-name parser *)

Record FansubFilenameData : Type := {
  fansub : string;
  title : string;
  epNum : num;
  paddedEpNum : string;
  season : option string;
}.

Record ParseError : Type := {
  parseError : string;
  fileName : string;
}.

(** [[\w|\d|\s-]] *)
Definition isTagChar (c : ascii) : bool :=
  isWordChar c || lit "|" c || isDigit c || isWhiteSpace c || lit "-" c.

(** [^\[([\w|\d|\s-]+)\]]: the bracketed tag that opens a name. *)
Definition tagRegEx : regex :=
  (Atom (lit "[") ⋅ Group 1 (Rep isTagChar 1 None) ⋅ Atom (lit "]"))%re.

(** [[0-9]{2,4}|S([0-9]{2})E([0-9]{2,4})|[0-9]{2,4}v[0-9]] *)
Definition episodeRegEx : regex :=
  (Rep isDigit 2 (Some 4)
   ∣ (Atom (litI "S") ⋅ Group 5 (Rep isDigit 2 (Some 2)) ⋅
      Atom (litI "E") ⋅ Group 6 (Rep isDigit 2 (Some 4)))
   ∣ (Rep isDigit 2 (Some 4) ⋅ Atom (litI "v") ⋅ Atom isDigit))%re.

(** [/^\[([\w|\d|\s-]+)\]\s(.+)(\sS[0-9]{1,2})?\s([0-9]{2,4}|S([0-9]{2})E([0-9]{2,4})|[0-9]{2,4}v[0-9])(\s|\.)/gi] *)
Definition fansubRegEx : regex :=
  (tagRegEx ⋅
   Atom isWhiteSpace ⋅
   Group 2 (Rep isNotLineTerminator 1 None) ⋅
   Opt (Group 3 (Atom isWhiteSpace ⋅ Atom (litI "S") ⋅ Rep isDigit 1 (Some 2))) ⋅
   Atom isWhiteSpace ⋅
   Group 4 episodeRegEx ⋅
   Group 7 (Atom isWhiteSpace ∣ Atom (lit ".")))%re.

(** [filenameParts[i]] *)
Definition part (i : nat) (parts : captures) : option string :=
  mjoin (parts !! i).

Definition truthyPart (p : option string) : bool :=
  match p with Some s => truthyStr s | None => false end.

Definition trimHyphen (t : string) : string :=
  match lastChar t with
  | Some c =>
      if Ascii.eqb c "-"
      then substring t 0 (Z.of_nat (String.length t) - 2)
      else t
  | None => t
  end.

(** [serializeFansubFilename].  [None] stands for the [TypeError] of
    reading a property of an [undefined] capture; [exec] never produces
    such an array. *)
Definition serializeFansubFilename (filenameParts : captures)
    : option FansubFilenameData :=
  fansub ← part 1 filenameParts;
  title ← part 2 filenameParts;
  let seasonP := part 3 filenameParts in
  let seasonAlt := part 5 filenameParts in
  if truthyPart seasonAlt then
    epNumAlt ← part 6 filenameParts;
    Some {| fansub := fansub;
            title := trimHyphen title;
            epNum := Number epNumAlt;
            paddedEpNum := epNumAlt;
            season := seasonAlt |}
  else
    epNumP ← part 4 filenameParts;
    Some {| fansub := fansub;
            title := trimHyphen title;
            epNum := Number epNumP;
            paddedEpNum := if includes epNumP "v" then splitHead "v" epNumP else epNumP;
            season := seasonP |}.

Definition batchMessage : string :=
  "This is a batch file, which means the season is over.".

Definition unsupportedMessage : string :=
  "Try to find another fansub group.".

(** [parseFansubFilename]: the pair [[error, data]] with exactly one
    non-null side is a sum. *)
Definition parseFansubFilename (name : string)
    : option (ParseError + FansubFilenameData) :=
  match exec fansubRegEx 7 name with
  | None =>
      let errorMessage :=
        if includes (toLowerCase name) "(batch)" || includes (toLowerCase name) "[batch]"
        then batchMessage
        else unsupportedMessage in
      Some (inl {| parseError := errorMessage; fileName := name |})
  | Some parts => inr <$> serializeFansubFilename parts
  end.

(** The two kinds of parse failure of the specification. *)
Inductive ParseFailure : Type := BatchRelease | UnrecognizedFormat.

Definition failureKind (e : ParseError) : option ParseFailure :=
  if String.eqb (parseError e) batchMessage then Some BatchRelease
  else if String.eqb (parseError e) unsupportedMessage then Some UnrecognizedFormat
  else None.


(** [truncateStr] *)
Definition truncateStr (str : string) (length : nat) : string :=
  let substr := substring str 0 (Z.of_nat length) in
  if (String.length substr <? String.length str)%nat
  then substr +:+ "..."
  else str.

(** ** The world the program runs in *)

(** kitsu-types.ts is not among the sources; the record holds the fields
    watch.ts reads and writes. *)
Record KitsuCacheItem : Type := {
  libID : string;
  jpTitle : string;
  enTitle : string;
  synonyms : list string;
  epProgress : num;
  epCount : num;
}.

Definition setEpProgress (p : num) (a : KitsuCacheItem) : KitsuCacheItem :=
  {| libID := libID a; jpTitle := jpTitle a; enTitle := enTitle a;
     synonyms := synonyms a; epProgress := p; epCount := epCount a |}.

Definition setEpCount (n : num) (a : KitsuCacheItem) : KitsuCacheItem :=
  {| libID := libID a; jpTitle := jpTitle a; enTitle := enTitle a;
     synonyms := synonyms a; epProgress := epProgress a; epCount := n |}.

(** An object reference: the address of the object in the heap. *)
Abbreviation addr := nat (only parsing).

(** A path is the list of its segments; [pathJoin] appends segments.  The
    names [readdirSync] returns and the literal [watched] are single
    segments. *)
Abbreviation path := (list string) (only parsing).

Definition pathJoin (dir : path) (segments : list string) : path :=
  dir ++ segments.

Inductive node : Type :=
| File (content : string)
| Dir.

(** The file system: the existing paths with what is there, in listing
    order. *)
Abbreviation FS := (list (list string * node)) (only parsing).

Inductive exn : Type :=
| EEXIST | ENOENT | ENOTDIR | EISDIR | ENOTEMPTY | EINVAL
| TypeError
| RemoteUpdateFailure.

Record Attributes : Type := { progress : num }.
Record Data : Type := { id : string; type_ : string; attributes : Attributes }.
Record Body : Type := { data : Data }.

(** A [Log] of the printer: [null] or [[color, [key, value]]]. *)
Definition Log : Type := option (string * (string * string)).

(** What the program does to the outside, in order. *)
Inductive event : Type :=
| ConInfo (msg : string)
| ConError (msg : string)
| ConChainError (msgs : list string)
| PrinterPrint (logs : list Log)
| ParseErrorReport (e : ParseError)
| UpdateAnime (url : string) (body : Body)
| ConfigSave.

Record World : Type := {
  heap : list KitsuCacheItem;
  cache : list addr;
  fileBindings : gmap string string;
  disk : option (list KitsuCacheItem * gmap string string);
  fs : FS;
  trace : list event;
}.

Definition withHeap (h : list KitsuCacheItem) (w : World) : World :=
  {| heap := h; cache := cache w; fileBindings := fileBindings w;
     disk := disk w; fs := fs w; trace := trace w |}.

Definition withCache (c : list addr) (w : World) : World :=
  {| heap := heap w; cache := c; fileBindings := fileBindings w;
     disk := disk w; fs := fs w; trace := trace w |}.

Definition withFileBindings (b : gmap string string) (w : World) : World :=
  {| heap := heap w; cache := cache w; fileBindings := b;
     disk := disk w; fs := fs w; trace := trace w |}.

Definition withDisk (d : option (list KitsuCacheItem * gmap string string))
    (w : World) : World :=
  {| heap := heap w; cache := cache w; fileBindings := fileBindings w;
     disk := d; fs := fs w; trace := trace w |}.

Definition withFs (f : FS) (w : World) : World :=
  {| heap := heap w; cache := cache w; fileBindings := fileBindings w;
     disk := disk w; fs := f; trace := trace w |}.

Definition withTrace (t : list event) (w : World) : World :=
  {| heap := heap w; cache := cache w; fileBindings := fileBindings w;
     disk := disk w; fs := fs w; trace := t |}.

(** How a call ends: it returns, the process exits, or an exception
    propagates. *)
Inductive result (A : Type) : Type :=
| Ret (a : A)
| Exit (status : Z)
| Throw (e : exn).

Arguments Ret {A} a.
Arguments Exit {A} status.
Arguments Throw {A} e.

Definition M (A : Type) : Type := World -> result A * World.

#[global] Instance M_ret : MRet M := fun A a w => (Ret a, w).

#[global] Instance M_bind : MBind M := fun A B f m w =>
  match m w with
  | (Ret a, w') => f a w'
  | (Exit status, w') => (Exit status, w')
  | (Throw e, w') => (Throw e, w')
  end.

Definition exit {A} (status : Z) : M A := fun w => (Exit status, w).
Definition throw {A} (e : exn) : M A := fun w => (Throw e, w).
Definition gets {A} (f : World -> A) : M A := fun w => (Ret (f w), w).
Definition modify (f : World -> World) : M unit := fun w => (Ret tt, f w).
Definition emit (e : event) : M unit :=
  modify (fun w => withTrace (trace w ++ [e]) w).

(** Iteration of a statement over an array. *)
Fixpoint forEach {A} (f : A -> M unit) (l : list A) : M unit :=
  match l with
  | [] => mret tt
  | x :: l' => f x ≫= fun _ => forEach f l'
  end.

(** *** The heap *)

(** Reading through a reference; a dangling one cannot arise in
    JavaScript and is a [TypeError] here. *)
Definition deref (a : addr) : M KitsuCacheItem := fun w =>
  match heap w !! a with
  | Some o => (Ret o, w)
  | None => (Throw TypeError, w)
  end.

(** Assignment to the fields of the object at [a]. *)
Definition update (a : addr) (f : KitsuCacheItem -> KitsuCacheItem) : M unit :=
  modify (fun w => withHeap (alter f a (heap w)) w).

(** A new object: it takes the next free address. *)
Definition alloc (o : KitsuCacheItem) : M addr := fun w =>
  (Ret (length (heap w)), withHeap (heap w ++ [o]) w).

(** [structuredClone(obj)]: a fresh object with the same fields. *)
Definition structuredClone (a : addr) : M addr :=
  o ← deref a; alloc o.

(** *** node:fs *)

Fixpoint lookupPath (f : FS) (p : path) : option node :=
  match f with
  | [] => None
  | (q, k) :: f' => if bool_decide (q = p) then Some k else lookupPath f' p
  end.

Definition parent (p : path) : path := removelast p.

Definition isDirectory (f : FS) (p : path) : bool :=
  match p, lookupPath f p with
  | [], _ => true
  | _, Some Dir => true
  | _, _ => false
  end.

Definition isPrefix (p q : path) : bool := bool_decide (take (length p) q = p).

Definition hasChildren (f : FS) (p : path) : bool :=
  existsb (fun e => isPrefix p e.1 && negb (bool_decide (e.1 = p))) f.

Definition removePath (p : path) (f : FS) : FS :=
  filter (fun e => e.1 <> p) f.

Definition reroot (old new : path) (f : FS) : FS :=
  (fun e : path * node =>
     if isPrefix old e.1 then (new ++ drop (length old) e.1, e.2) else e) <$> f.

Definition existsSync (p : path) : M bool :=
  gets (fun w => bool_decide (is_Some (lookupPath (fs w) p))).

(** Some proper ancestor of [p] is a regular file. *)
Definition throughFile (f : FS) (p : path) : bool :=
  existsb (fun k => match lookupPath f (take k p) with
                    | Some (File _) => true
                    | _ => false
                    end)
          (seq 1 (length p - 1)).

(** The error of a path that cannot be reached: [ENOTDIR] when a regular
    file is on the way, [ENOENT] when a segment is missing. *)
Definition unreachable (f : FS) (p : path) : exn :=
  if throughFile f p then ENOTDIR else ENOENT.

Definition mkdirSync (p : path) : M unit := fun w =>
  if bool_decide (is_Some (lookupPath (fs w) p)) || bool_decide (p = [])
  then (Throw EEXIST, w)
  else if isDirectory (fs w) (parent p)
  then (Ret tt, withFs (fs w ++ [(p, Dir)]) w)
  else (Throw (unreachable (fs w) p), w).

Definition renameSync (old new : path) : M unit := fun w =>
  let f := fs w in
  match lookupPath f old with
  | None => (Throw (unreachable f old), w)
  | Some k =>
      if negb (isDirectory f (parent new)) then (Throw (unreachable f new), w)
      else if bool_decide (old = new) then (Ret tt, w)
      else if isPrefix old new then (Throw EINVAL, w)
      else
        match k, lookupPath f new with
        | _, None => (Ret tt, withFs (reroot old new f) w)
        | File _, Some (File _) =>
            (Ret tt, withFs (reroot old new (removePath new f)) w)
        | File _, Some Dir => (Throw EISDIR, w)
        | Dir, Some (File _) => (Throw ENOTDIR, w)
        | Dir, Some Dir =>
            if hasChildren f new then (Throw ENOTEMPTY, w)
            else (Ret tt, withFs (reroot old new (removePath new f)) w)
        end
  end.

Record Dirent : Type := { name : string; isFile : bool }.

Definition direntOf (dir : path) (e : path * node) : option Dirent :=
  match e.2, last e.1 with
  | k, Some n =>
      if bool_decide (e.1 = dir ++ [n])
      then Some {| name := n; isFile := match k with File _ => true | Dir => false end |}
      else None
  | _, None => None
  end.

(** [readdirSync(dir, { withFileTypes: true })] *)
Definition readdirSync (dir : path) : M (list Dirent) := fun w =>
  match dir, lookupPath (fs w) dir with
  | _ :: _, None => (Throw (unreachable (fs w) dir), w)
  | _ :: _, Some (File _) => (Throw ENOTDIR, w)
  | _, _ => (Ret (omap (direntOf dir) (fs w)), w)
  end.

(** ** The collaborators of watch.ts *)

(** Modelled from the spec: [Config.save] of config.ts, which is not among
    the sources ("persist the whole configuration"): the cache entries and
    the bindings as they are at the call are what the disk then holds. *)
Definition Config_save : M unit := fun w =>
  (Ret tt,
   withTrace (trace w ++ [ConfigSave])
     (withDisk (Some (omap (fun a => heap w !! a) (cache w), fileBindings w)) w)).

(** Modelled from the spec: [Config.getKitsuProp('cache')] of config.ts
    ("getCache() -> list"): the cache array itself, not a copy. *)
Definition Config_getKitsuProp_cache : M (list addr) := gets cache.

(** Modelled from the spec: [Kitsu.animeCache] of kitsu.ts, which is not
    among the sources: the same array, holding the same objects, as
    [Config.getKitsuProp('cache')]. *)
Definition Kitsu_animeCache : M (list addr) := gets cache.

(** Modelled from the spec: [Kitsu.getFileBinding] of kitsu.ts
    ("getFileBinding(id) -> string|null").  kitsu.ts is not among the
    sources, and init.ts only shows that the store starts as an empty array
    under [config.kitsu.fileBindings]; the store is taken as the
    specification gives it, "a persisted mapping [libraryId ->
    searchTitle]". *)
Definition Kitsu_getFileBinding (id : string) : M (option string) :=
  gets (fun w => fileBindings w !! id).

(** Modelled from the spec: what [setBinding] makes of the store ("Never
    overwrites an existing binding"). *)
Definition offered (b : gmap string string) (id name : string) : gmap string string :=
  match b !! id with
  | Some _ => b
  | None => <[id := name]> b
  end.

(** Modelled from the spec: [Kitsu.setFileBinding] of kitsu.ts
    ("setBinding(libraryId, title)": "Never overwrites an existing
    binding"): a library id without a binding is bound to [name], a stored
    binding is left as it is; nothing is saved by the call. *)
Definition Kitsu_setFileBinding (id name : string) : M unit :=
  modify (fun w => withFileBindings (offered (fileBindings w) id name) w).

Definition hasLibID (i : string) (h : list KitsuCacheItem) (a : addr) : bool :=
  match h !! a with
  | Some o => String.eqb (libID o) i
  | None => false
  end.

(** Modelled from the spec: [Kitsu.removeAnimeFromCache] of kitsu.ts
    ("remove entry from the cache"; [libraryId] is the primary key): the
    cache loses the entries that carry the library id of [anime], and the
    configuration is saved when [saveConfig] is set. *)
Definition Kitsu_removeAnimeFromCache (anime : addr) (saveConfig : bool) : M unit :=
  o ← deref anime;
  modify (fun w =>
    withCache (List.filter (fun a => negb (hasLibID (libID o) (heap w) a)) (cache w)) w);;
  if saveConfig then Config_save else mret tt.

(** Modelled from the spec: watch.ts of this revision reads [title] and
    [paddedEpNum] off the value of [parseFansubFilename], where the only
    revision of utils.ts among the sources returns the pair
    [[error, data]]; the utils.ts that goes with this watch.ts is missing.
    For a name the pattern matches the value is the data of
    [serializeFansubFilename] above ("parse(fileName) -> ParsedFilename |
    ParseFailure").  A name the pattern rejects has no data to read a title
    from; the failure is reported and ends the invocation ("ParseError:
    filename does not decode; reported to the operator", fatal).  The
    theorems on [saveAnimeProgress] and [watchAnime] below either do not
    reach that case or do not depend on how it ends the invocation. *)
Definition parsedFansubFilename (name : string) : M FansubFilenameData :=
  match parseFansubFilename name with
  | Some (inr d) => mret d
  | Some (inl e) => emit (ParseErrorReport e);; exit 1
  | None => throw TypeError
  end.

Definition Printer_print (logs : list Log) : M unit := emit (PrinterPrint logs).
Definition con_info (msg : string) : M unit := emit (ConInfo msg).
Definition con_error (msg : string) : M unit := emit (ConError msg).
Definition con_chainError (msgs : list string) : M unit := emit (ConChainError msgs).

(** ** watch.ts *)

Module ProgressOptions.
Record t : Type := {
  anime : addr;        (* Anime being updated *)
  cacheIndex : Z;      (* Cache index of the anime being updated *)
  epNum : num;         (* Episode number to set as progress *)
  forcedEpNum : num;   (* Override episode number to set as progress *)
  fileName : string;   (* File name of the anime to update *)
}.
End ProgressOptions.

Definition pathToString (p : path) : string := String.concat "/" p.

Definition tryCreateWatchedDir (workingDir : path) : M unit :=
  let watchedDir := pathJoin workingDir ["watched"] in
  e ← existsSync watchedDir;
  if negb e then
    mkdirSync watchedDir;;
    con_info ("Watched directory created: ;by;" +:+ pathToString watchedDir)
  else mret tt.

(** The episode token a file name has to contain. *)
Definition epToken (epNum : string) : string :=
  if (String.length epNum =? 1)%nat then "- 0" +:+ epNum else "- " +:+ epNum.

(** The callback of the second [filter] of [filterFansubFilenames]. *)
Definition isFansubFilename (epName epNum name : string) : bool :=
  bool_decide (is_Some (exec tagRegEx 1 name))
  && includes (toLowerCase name) epName
  && includes name (epToken epNum).

Definition filterFansubFilenames (workingDir : path) (epName epNum : string)
    : M (list string) :=
  files ← readdirSync workingDir;
  mret (List.filter (isFansubFilename epName epNum)
          (name <$> List.filter isFile files)).

Definition displayErrorTooManyFiles (fileNames : list string) : M unit :=
  lines ← mapM (fun fileName =>
      d ← parsedFansubFilename fileName;
      let saneFileName := truncateStr (title d) 60 in
      mret (";by;" +:+ saneFileName +:+ " ;x;- " +:+ paddedEpNum d)) fileNames;
  con_chainError ([""; ";r;More than one file name found"] ++ lines).

(** [arr.findIndex(p)]: [-1] when no element satisfies [p]. *)
Fixpoint findIndexFrom {A} (p : A -> bool) (i : Z) (l : list A) : Z :=
  match l with
  | [] => (-1)%Z
  | x :: l' => if p x then i else findIndexFrom p (i + 1)%Z l'
  end.

Definition findIndex {A} (p : A -> bool) (l : list A) : Z := findIndexFrom p 0%Z l.

Definition validateCachedAnime (cache : list addr) : M (addr * Z) :=
  match cache with
  | [] =>
      con_chainError
        [""; ";r;Anime Not Found -- for 3 possible reasons";
         ";bc;(1) The Anime is not in your ;by;Kitsu ;bc;watch list";
         ";bc;(2) You forgot to ;by;-rc ;bc;after updating ;by;Kitsu ;bc;watch list";
         ";bc;(3) File name of the Anime has not been bound to the cache yet"];;
      exit 1
  | _ :: _ :: _ =>
      titles ← mapM (fun a => o ← deref a; mret (";bc;Title: ;x;" +:+ jpTitle o)) cache;
      let errorChain := [""; ";r;Multiple Cached Titles Found"] ++ titles in
      con_chainError (errorChain ++ [";by;Use a more unique name to reference the episode"]);;
      exit 1
  | [c0] =>
      clone ← structuredClone c0;
      configCache ← Config_getKitsuProp_cache;
      mret (clone, findIndex (Nat.eqb c0) configCache)
  end.

Definition buildLibPatchReqArgs (id : string) (progress : num) : string * Body :=
  ("https://kitsu.io/api/edge/library-entries/" +:+ id,
   {| data := {| id := id; type_ := "library-entries";
                 attributes := {| progress := progress |} |} |}).

(** [arr[i] = x] on an array without holes: an index within the array
    replaces the element, the index that is the length appends, and [-1]
    only sets a property and leaves the elements alone.  An index beyond
    the length would leave holes, which a list of addresses does not hold;
    [findIndex] never yields one, and the properties below that depend on
    the write ask for an index within the array. *)
Definition arraySet {A} (l : list A) (i : Z) (x : A) : list A :=
  if (i <? 0)%Z then l
  else if (Z.to_nat i =? length l)%nat then l ++ [x]
  else <[Z.to_nat i := x]> l.

Section Watch.

(** The remote collaborator [Kitsu.updateAnime]: what it answers to a
    request, [None] when the request fails. *)
Variable updateAnime : string -> Body -> option (num * option num).

Definition Kitsu_updateAnime (args : string * Body) : M (num * option num) :=
  emit (UpdateAnime args.1 args.2);;
  match updateAnime args.1 args.2 with
  | Some r => mret r
  | None => throw RemoteUpdateFailure
  end.

Definition saveAnimeProgress (opt : ProgressOptions.t) : M unit :=
  let anime := ProgressOptions.anime opt in
  let cacheIndex := ProgressOptions.cacheIndex opt in
  let forcedEpNum := ProgressOptions.forcedEpNum opt in
  let epNum := ProgressOptions.epNum opt in
  let fileName := ProgressOptions.fileName opt in
  a0 ← deref anime;
  r ← Kitsu_updateAnime (buildLibPatchReqArgs (libID a0) (orElse forcedEpNum epNum));
  let progress := r.1 in
  let episodeCount := r.2 in
  update anime (setEpProgress progress);;
  a1 ← deref anime;
  let titleLogs : list Log :=
    [None;
     Some ("py", ("JP Title", jpTitle a1));
     Some ("py", ("EN Title", if truthyStr (enTitle a1) then enTitle a1 else ";m;None"))] in
  update anime (setEpCount (nullish episodeCount (Num 0)));;
  if gt progress (Num 0) && looseEq progress episodeCount then
    Kitsu_removeAnimeFromCache anime false;;
    Printer_print (titleLogs ++ [Some ("py", ("Progress", ";bg;Completed")); None]);;
    Config_save
  else
    a2 ← deref anime;
    b ← Kitsu_getFileBinding (libID a2);
    (if negb (truthyPart b) then
       d ← parsedFansubFilename fileName;
       Kitsu_setFileBinding (libID a2) (toLowerCase (title d))
     else mret tt);;
    modify (fun w => withCache (arraySet (cache w) cacheIndex anime) w);;
    a3 ← deref anime;
    Printer_print
      (titleLogs ++
       [Some ("py", ("Progress",
          ";g;" +:+ numToString (epProgress a3) +:+ " ;by;/ ;m;" +:+
          (if truthy (epCount a3) then numToString (epCount a3) else "unknown")));
        None]);;
    Config_save.

Definition moveFileToWatchedDir (fileName : string) (workingDir : path) : M unit :=
  renameSync (pathJoin workingDir [fileName])
             (pathJoin workingDir ["watched"; fileName]).

(** The callback of the cache [filter] of [watchAnime]. *)
Definition matchesEpName (epName : string) (anime : KitsuCacheItem) : bool :=
  includes (toLowerCase (jpTitle anime)) epName
  || includes (toLowerCase (enTitle anime)) epName
  || existsb (fun s => includes (toLowerCase s) epName) (synonyms anime).

(** [arr.filter(p)] over an array of objects. *)
Fixpoint filterObjects (p : KitsuCacheItem -> bool) (l : list addr) : M (list addr) :=
  match l with
  | [] => mret []
  | a :: l' =>
      o ← deref a;
      rest ← filterObjects p l';
      mret (if p o then a :: rest else rest)
  end.

Definition watchAnime (epName : string) (epNumStrings : string * string)
    (workingDir : path) : M unit :=
  let '(fileEpNumStr, forcedEpNumStr) := epNumStrings in
  tryCreateWatchedDir workingDir;;
  animeCache ← Kitsu_animeCache;
  cachedAnime ← filterObjects (matchesEpName epName) animeCache;
  v ← validateCachedAnime cachedAnime;
  let '(validAnime, cacheIndex) := v in
  valid ← deref validAnime;
  binding ← Kitsu_getFileBinding (libID valid);
  let fileTitle := nullish binding epName in
  fansubFileNames ← filterFansubFilenames workingDir fileTitle fileEpNumStr;
  match fansubFileNames with
  | [] =>
      con_error (";by;" +:+ fileTitle +:+ " ;x;episode ;by;" +:+ fileEpNumStr +:+
                 " ;x;does NOT exist");;
      exit 1
  | _ :: _ :: _ =>
      displayErrorTooManyFiles fansubFileNames;;
      exit 1
  | [foundFileName] =>
      saveAnimeProgress
        {| ProgressOptions.anime := validAnime;
           ProgressOptions.cacheIndex := cacheIndex;
           ProgressOptions.epNum := Number fileEpNumStr;
           ProgressOptions.forcedEpNum := Number forcedEpNumStr;
           ProgressOptions.fileName := foundFileName |};;
      moveFileToWatchedDir foundFileName workingDir
  end.

End Watch.

(** ** The specification's vocabulary *)

Fixpoint allChars (p : ascii -> bool) (s : string) : bool :=
  match s with
  | EmptyString => true
  | String c s' => p c && allChars p s'
  end.

(** A name starts with a bracketed tag: an opening bracket, one or more
    tag characters, a closing bracket. *)
Definition startsWithTag (n : string) : Prop :=
  exists tag rest,
    n = "[" +:+ tag +:+ "]" +:+ rest /\ tag <> "" /\ allChars isTagChar tag = true.

(** A name matches the supported release-group grammar. *)
Definition matchesGrammar (name : string) : Prop :=
  is_Some (exec fansubRegEx 7 name).

(** [n] is a regular file directly in [dir]. *)
Definition regularFileIn (f : FS) (dir : path) (n : string) : Prop :=
  exists c, (dir ++ [n], File c) ∈ f.



(** A world with nothing cached, bound or saved, over the file system [f]. *)
Definition worldOfFs (f : FS) : World :=
  {| heap := []; cache := []; fileBindings := ∅; disk := None; fs := f; trace := [] |}.


(** *** The stages of a synchronisation

    The worlds [saveAnimeProgress] goes through, for the entry [o] found at
    the address a synchronisation is given. *)

Section Stages.

Variables (opt : ProgressOptions.t) (o : KitsuCacheItem) (w : World).

(** The request sent to the remote. *)
Definition request : string * Body :=
  buildLibPatchReqArgs (libID o)
    (orElse (ProgressOptions.forcedEpNum opt) (ProgressOptions.epNum opt)).

(** The entry once the answer [(p, n)] of the remote is recorded in it. *)
Definition recorded (p : num) (n : option num) : KitsuCacheItem :=
  setEpCount (nullish n (Num 0)) (setEpProgress p o).

(** The world once the answer is recorded in the object. *)
Definition afterUpdate (p : num) (n : option num) : World :=
  withHeap
    (alter (setEpCount (nullish n (Num 0))) (ProgressOptions.anime opt)
       (alter (setEpProgress p) (ProgressOptions.anime opt) (heap w)))
    (withTrace (trace w ++ [UpdateAnime request.1 request.2]) w).

Definition titleLogs : list Log :=
  [None;
   Some ("py", ("JP Title", jpTitle o));
   Some ("py", ("EN Title", if truthyStr (enTitle o) then enTitle o else ";m;None"))].

Definition progressLog (p : num) (n : option num) : Log :=
  Some ("py", ("Progress",
    ";g;" +:+ numToString p +:+ " ;by;/ ;m;" +:+
    (if truthy (nullish n (Num 0)) then numToString (nullish n (Num 0)) else "unknown"))).

(** The world a completed series leaves. *)
Definition afterCompletion (p : num) (n : option num) : World :=
  let w1 := afterUpdate p n in
  let w2 :=
    withCache
      (List.filter (fun a => negb (hasLibID (libID o) (heap w1) a)) (cache w1)) w1 in
  let w3 :=
    withTrace
      (trace w2 ++
       [PrinterPrint (titleLogs ++ [Some ("py", ("Progress", ";bg;Completed")); None])])
      w2 in
  withTrace (trace w3 ++ [ConfigSave])
    (withDisk (Some (omap (fun a => heap w3 !! a) (cache w3), fileBindings w3)) w3).

(** The world the write-back leaves, with the bindings [b]. *)
Definition afterWriteBack (p : num) (n : option num) (b : gmap string string) : World :=
  let w1 := withFileBindings b (afterUpdate p n) in
  let w2 :=
    withCache (arraySet (cache w1) (ProgressOptions.cacheIndex opt)
                 (ProgressOptions.anime opt)) w1 in
  let w3 :=
    withTrace (trace w2 ++ [PrinterPrint (titleLogs ++ [progressLog p n; None])]) w2 in
  withTrace (trace w3 ++ [ConfigSave])
    (withDisk (Some (omap (fun a => heap w3 !! a) (cache w3), fileBindings w3)) w3).

(** A series is complete. *)
Definition completed (p : num) (n : option num) : bool :=
  gt p (Num 0) && looseEq p n.

(** What [saveAnimeProgress] does, stage by stage. *)
Definition synchronised (answer : option (num * option num)) : result unit * World :=
  match answer with
  | None =>
      (Throw RemoteUpdateFailure,
       withTrace (trace w ++ [UpdateAnime request.1 request.2]) w)
  | Some (p, n) =>
      if completed p n then (Ret tt, afterCompletion p n)
      else if truthyPart (fileBindings w !! libID o) then
        (Ret tt, afterWriteBack p n (fileBindings w))
      else
        match parseFansubFilename (ProgressOptions.fileName opt) with
        | Some (inr d) =>
            (Ret tt,
             afterWriteBack p n
               (offered (fileBindings w) (libID o) (toLowerCase (title d))))
        | Some (inl e) =>
            (Exit 1,
             withTrace (trace (afterUpdate p n) ++ [ParseErrorReport e]) (afterUpdate p n))
        | None => (Throw TypeError, afterUpdate p n)
        end
  end.

End Stages.


(** *** What the claims say of a synchronisation *)

(** The entry [o] has been evicted between [w] and [w']: the cache lost the
    entries with its library id, and only them; no entry with that id is
    left; the bindings are as before; the configuration was saved once,
    last, and holds the cache as it now is. *)
Definition evicted (o : KitsuCacheItem) (w w' : World) : Prop :=
  cache w' = List.filter (fun a => negb (hasLibID (libID o) (heap w') a)) (cache w)
  /\ (forall a o', a ∈ cache w' -> heap w' !! a = Some o' -> libID o' <> libID o)
  /\ fileBindings w' = fileBindings w
  /\ disk w' = Some (omap (fun a => heap w' !! a) (cache w'), fileBindings w')
  /\ (exists url body logs,
        trace w' = trace w ++ [UpdateAnime url body; PrinterPrint logs; ConfigSave])
  /\ fs w' = fs w.

(** *** A worked example *)

Module Example.

Definition show : KitsuCacheItem :=
  {| libID := "101"; jpTitle := "Show Title"; enTitle := ""; synonyms := ["ST"];
     epProgress := Num 11; epCount := Num 12 |}.

Definition other : KitsuCacheItem :=
  {| libID := "202"; jpTitle := "Other Thing"; enTitle := "Another"; synonyms := [];
     epProgress := Num 3; epCount := Num 24 |}.

Definition files : list (list string * node) :=
  [(["anime"], Dir);
   (["anime"; "[Group] Show Title - 12.mkv"], File "video-12");
   (["anime"; "[Group] Other Thing - 04.mkv"], File "video-04");
   (["anime"; "watched"], Dir)].

(** The cache holds [show] and [other]; the object at address 2 is the
    copy of [show] a resolver hands to the synchroniser. *)
Definition world : World :=
  {| heap := [show; other; show]; cache := [0; 1]; fileBindings := ∅;
     disk := None; fs := files; trace := [] |}.

Definition options : ProgressOptions.t :=
  {| ProgressOptions.anime := 2; ProgressOptions.cacheIndex := 0;
     ProgressOptions.epNum := Num 12; ProgressOptions.forcedEpNum := Num 0;
     ProgressOptions.fileName := "[Group] Show Title - 12.mkv" |}.

(** A remote that confirms the progress it is sent, for series of [count]
    episodes. *)
Definition confirming (count : option num) (url : string) (body : Body)
    : option (num * option num) :=
  Some (progress (attributes (data body)), count).

(** Two release groups published episode 12 of the same series. *)
Definition twoReleases : list (list string * node) :=
  [(["anime"], Dir);
   (["anime"; "[Group] Show Title - 12.mkv"], File "video-12");
   (["anime"; "[Other] Show Title - 12.mkv"], File "video-12b");
   (["anime"; "watched"], Dir)].

(** The cache before a resolver has copied anything, one file per series. *)
Definition ready : World :=
  {| heap := [show; other]; cache := [0; 1]; fileBindings := ∅;
     disk := None; fs := files; trace := [] |}.

(** The same, with a regular file where [watched] should be. *)
Definition blocked : World :=
  {| heap := [show; other]; cache := [0; 1];
     fileBindings := {[ "101" := "show title" ]}; disk := None;
     fs := [(["anime"], Dir);
            (["anime"; "[Group] Show Title - 12.mkv"], File "video-12");
            (["anime"; "watched"], File "a note")];
     trace := [] |}.

(** The series [show] is bound to the title its files carry. *)
Definition bound : World :=
  {| heap := [show; other]; cache := [0; 1];
     fileBindings := {[ "101" := "show title" ]};
     disk := None; fs := files; trace := [] |}.

(** The world of [world] once [show] is bound to a title of its own. *)
Definition boundWorld : World :=
  {| heap := [show; other; show]; cache := [0; 1];
     fileBindings := {[ "101" := "shw ttl" ]};
     disk := None; fs := files; trace := [] |}.


(** The cache before a resolver has copied anything. *)
Definition cached : World :=
  {| heap := [show; other]; cache := [0; 1]; fileBindings := ∅;
     disk := None; fs := twoReleases; trace := [] |}.

End Example.


(** *** The stages of an invocation *)

(** The cache entries [watchAnime] keeps for [epName]. *)
Definition matchingEntries (epName : string) (w : World) : list nat :=
  List.filter
    (fun a => match heap w !! a with
              | Some o => matchesEpName epName o
              | None => false
              end)
    (cache w).

(** The names [filterFansubFilenames] keeps in a directory. *)
Definition candidateFiles (f : list (list string * node)) (dir : list string)
    (searchTerm epNum : string) : list string :=
  List.filter (isFansubFilename searchTerm epNum)
    (name <$> List.filter isFile (omap (direntOf dir) f)).

(** What [watchAnime] does once the cache entry is resolved: [fileTitle] is
    the term the file names are searched with. *)
Definition selectFile (updateAnime : string -> Body -> option (num * option num))
    (fileTitle fileEpNumStr forcedEpNumStr : string) (workingDir : list string)
    (validAnime : nat) (cacheIndex : Z) : M unit :=
  fansubFileNames ← filterFansubFilenames workingDir fileTitle fileEpNumStr;
  match fansubFileNames with
  | [] =>
      con_error (";by;" +:+ fileTitle +:+ " ;x;episode ;by;" +:+ fileEpNumStr +:+
                 " ;x;does NOT exist");;
      exit 1
  | _ :: _ :: _ =>
      displayErrorTooManyFiles fansubFileNames;;
      exit 1
  | [foundFileName] =>
      saveAnimeProgress updateAnime
        {| ProgressOptions.anime := validAnime;
           ProgressOptions.cacheIndex := cacheIndex;
           ProgressOptions.epNum := Number fileEpNumStr;
           ProgressOptions.forcedEpNum := Number forcedEpNumStr;
           ProgressOptions.fileName := foundFileName |};;
      moveFileToWatchedDir foundFileName workingDir
  end.

(** The cache match as the specification words it: the search term is the
    binding of the entry when there is one, the episode name otherwise, and
    it is compared without regard to case. *)
Definition specCacheMatch (bindings : gmap string string) (epName : string)
    (o : KitsuCacheItem) : bool :=
  let term := nullish (bindings !! libID o) epName in
  includesCI (jpTitle o) term
  || includesCI (enTitle o) term
  || existsb (fun s => includesCI s term) (synonyms o).








(** *** What a match leaves in the captures

    [sets r caps caps'] holds when a successful match of [r] may turn the
    captures [caps] into [caps']. *)
Fixpoint sets (r : regex) (caps caps' : list (option string)) : Prop :=
  match r with
  | Atom _ | Rep _ _ _ => caps' = caps
  | Cat r1 r2 => exists c1, sets r1 caps c1 /\ sets r2 c1 caps'
  | Alt r1 r2 => sets r1 caps caps' \/ sets r2 caps caps'
  | Opt r' => sets r' caps caps' \/ caps' = caps
  | Group n r' => exists c1 str, sets r' caps c1 /\ caps' = <[n := Some str]> c1
  end.


(** *** An invocation that reaches the file search

    [watchAnime] has created or found [watched] (the world is then [w1]),
    every cache entry is an object, the episode name selects the one entry
    at address [a], which holds [o], and the working directory can be
    listed. *)
Definition resolvedTo (epName : string) (workingDir : list string)
    (w w1 : World) (a : nat) (o : KitsuCacheItem) : Prop :=
  tryCreateWatchedDir workingDir w = (Ret tt, w1)
  /\ (forall b, b ∈ cache w1 -> is_Some (heap w1 !! b))
  /\ matchingEntries epName w1 = [a]
  /\ heap w1 !! a = Some o
  /\ isDirectory (fs w1) workingDir = true.

(** The term the files of the resolved entry are searched with. *)
Definition fileTitleOf (epName : string) (w1 : World) (o : KitsuCacheItem) : string :=
  nullish (fileBindings w1 !! libID o) epName.

(** The options [watchAnime] hands to [saveAnimeProgress]. *)
Definition optionsOf (fileEpNumStr forcedEpNumStr foundFileName : string)
    (w1 : World) (a : nat) : ProgressOptions.t :=
  {| ProgressOptions.anime := length (heap w1);
     ProgressOptions.cacheIndex := findIndex (Nat.eqb a) (cache w1);
     ProgressOptions.epNum := Number fileEpNumStr;
     ProgressOptions.forcedEpNum := Number forcedEpNumStr;
     ProgressOptions.fileName := foundFileName |}.

(** The world in which the copy of the resolved entry exists. *)
Definition withCopy (o : KitsuCacheItem) (w1 : World) : World :=
  withHeap (heap w1 ++ [o]) w1.


(** *** What a match consumes

    [matches r s caps s' caps'] holds when [r] can match a prefix of [s],
    leaving [s'] to be read and turning the captures [caps] into [caps']. *)
Fixpoint matches (r : regex) (s : string) (caps : list (option string))
    (s' : string) (caps' : list (option string)) : Prop :=
  match r with
  | Atom p => exists c, s = String c s' /\ p c = true /\ caps' = caps
  | Cat r1 r2 =>
      exists s1 c1, matches r1 s caps s1 c1 /\ matches r2 s1 c1 s' caps'
  | Alt r1 r2 => matches r1 s caps s' caps' \/ matches r2 s caps s' caps'
  | Rep p lo hi =>
      exists run,
        s = run +:+ s' /\ allChars p run = true /\ lo <= String.length run
        /\ (forall h, hi = Some h -> String.length run <= h) /\ caps' = caps
  | Opt r' => matches r' s caps s' caps' \/ (s' = s /\ caps' = caps)
  | Group n r' =>
      exists c1, matches r' s caps s' c1 /\ caps' = <[n := Some (consumed s s')]> c1
  end.


(** The three forms of the episode token and what they capture: a run of
    2 to 4 digits; [SxxEyy], whose groups 5 and 6 hold the two numbers; a
    run of 2 to 4 digits, a [v] in either case and a digit. *)
Definition plainToken (token : string) (g5 g6 : option string) : Prop :=
  g5 = None /\ g6 = None
  /\ allChars isDigit token = true
  /\ 2 <= String.length token <= 4.

Definition seasonToken (token : string) (g5 g6 : option string) : Prop :=
  exists cs dd ce run,
    token = String cs (dd +:+ String ce run)
    /\ g5 = Some dd /\ g6 = Some run
    /\ litI "S" cs = true /\ litI "E" ce = true
    /\ allChars isDigit dd = true /\ String.length dd = 2
    /\ allChars isDigit run = true /\ 2 <= String.length run <= 4.

Definition versionedToken (token : string) (g5 g6 : option string) : Prop :=
  exists run cv dg,
    token = run +:+ String cv (String dg "")
    /\ g5 = None /\ g6 = None
    /\ allChars isDigit run = true /\ 2 <= String.length run <= 4
    /\ litI "v" cv = true /\ isDigit dg = true.


(** ** utils.ts: padding and rendering *)

(** [toEpisodeNumberStr] *)
Definition toEpisodeNumberStr (epNum : num) : string :=
  match epNum with
  | Num z => if (z <? 10)%Z then "0" +:+ numToString epNum else numToString epNum
  | NaN => numToString epNum
  end.

(** [' '.repeat(n)] *)
Fixpoint spaces (n : nat) : string :=
  match n with
  | O => ""
  | S n' => String " " (spaces n')
  end.

(** The double quote. *)
Definition quote : string := String (ascii_of_nat 34) EmptyString.

(** A call that returns or throws [Error(message)]. *)
Inductive thrown (A : Type) : Type :=
| Returned (a : A)
| Raised (message : string).

Arguments Returned {A} a.
Arguments Raised {A} message.

(** [fitStringEnd]: [str.length > NaN] is false and [' '.repeat(NaN)] is
    the empty string. *)
Definition fitStringEnd (str : string) (maxLength : num) : thrown string :=
  match maxLength with
  | Num m =>
      if (m <? Z.of_nat (String.length str))%Z then
        Raised ("cannot fit " +:+ quote +:+ str +:+ quote +:+
                " inside a length of " +:+ numToString maxLength)
      else Returned (str +:+ spaces (Z.to_nat (m - Z.of_nat (String.length str))))
  | NaN => Returned (str +:+ spaces 0)
  end.


(** ** More of JavaScript's strings *)

(** [s.split(sep)[0]] for a separator that is not empty, as it is wherever
    the program splits: the text before the first occurrence of [sep]. *)
Fixpoint splitHeadStr (sep s : string) : string :=
  if String.prefix sep s then ""
  else match s with
       | EmptyString => ""
       | String c s' => String c (splitHeadStr sep s')
       end.

(** [s.substring(n)] *)
Fixpoint dropChars (n : nat) (s : string) : string :=
  match n, s with
  | O, _ => s
  | S n', String _ s' => dropChars n' s'
  | S _, EmptyString => ""
  end.

(** [s.replace(pat, '')] for a string pattern: the first occurrence of
    [pat] is removed. *)
Fixpoint removeFirst (pat s : string) : string :=
  if String.prefix pat s then dropChars (String.length pat) s
  else match s with
       | EmptyString => ""
       | String c s' => String c (removeFirst pat s')
       end.

(** [String.prototype.trimStart], [trimEnd] and [trim]: white space and
    line terminators, which together are the class [\s]. *)
Fixpoint trimStart (s : string) : string :=
  match s with
  | EmptyString => ""
  | String c s' => if isWhiteSpace c then trimStart s' else s
  end.

Fixpoint trimEnd (s : string) : string :=
  match s with
  | EmptyString => ""
  | String c s' =>
      match trimEnd s' with
      | EmptyString => if isWhiteSpace c then "" else String c ""
      | r => String c r
      end
  end.

Definition trim (s : string) : string := trimEnd (trimStart s).

(** ** utils.ts, earlier revision *)

(** [titleFromAnimeFileName] *)
Definition titleFromAnimeFileName (name ep : string) : string :=
  trim (splitHeadStr ("- " +:+ ep) (removeFirst "[subsplease]" name)).

(** [stripFansubInfo] *)
Definition stripFansubInfo (name : string) : string :=
  trim (splitHeadStr " (1080p)" (removeFirst "[subsplease]" name)).

(** ** watch.ts, earlier revision

    The revision that looks for SubsPlease files only and has neither
    bindings nor eviction.  [validateParams] needs help.ts and
    [setAnimeProgress] prints through [chainInfo]; they and [watchAnime],
    which calls them, are left out. *)

Module WatchV1.

Definition filterSubsPleaseFiles (workingDir : list string)
    (epName epNumSyntax : string) : M (list string) :=
  files ← readdirSync workingDir;
  mret (List.filter
          (fun n => includes n "[subsplease]" && includes n epName
                    && includes n epNumSyntax)
          ((fun file => toLowerCase (name file)) <$> List.filter isFile files)).

Definition displayErrorTooManyFiles (fileNames : list string)
    (epName epNumStr : string) : M unit :=
  let lines :=
    (fun fileName =>
       let trimmedFileName :=
         truncateStr (trimEnd (splitHeadStr ("- " +:+ epNumStr) fileName)) 60 in
       ";by;" +:+ trimmedFileName +:+ " ;x;- " +:+ epNumStr) <$> fileNames in
  con_chainError ([""; ";r;More than one file name found"] ++ lines).



(** [validateCachedAnime] returns the cache entry itself, not a copy.
    Reading [fileNames[0]] of an empty array gives [undefined], whose
    [replace] is a [TypeError]. *)
Definition validateCachedAnime (cache : list nat) (fileNames : list string)
    (epNumStr : string) : M nat :=
  match cache with
  | [] =>
      match fileNames with
      | [] => throw TypeError
      | fileName0 :: _ =>
          con_chainError
            [""; ";r;Watch List Incomplete";
             ";bc;Missing: ;g;" +:+ titleFromAnimeFileName fileName0 epNumStr];;
          exit 1
      end
  | _ :: _ :: _ =>
      titles ← mapM (fun a => o ← deref a; mret (";bc;Title: ;x;" +:+ jpTitle o)) cache;
      let errorChain := [""; ";r;Multiple Cached Titles Found"] ++ titles in
      con_chainError (errorChain ++ [";by;Use a more unique name to reference the episode"]);;
      exit 1
  | [c0] => mret c0
  end.

Definition moveFileToWatchedDir (fileName : string) (workingDir : list string) : M unit :=
  renameSync (pathJoin workingDir [fileName])
             (pathJoin workingDir ["watched"; fileName]);;
  con_info (";bc;Moved To: ;by;" +:+ pathToString (pathJoin workingDir ["watched"])).

End WatchV1.

(** ** Properties *)

(** *** Strings *)

Lemma length_append (s t : string) :
  String.length (s +:+ t) = String.length s + String.length t.
Proof. induction s as [|c s IH]; simpl; [reflexivity | now rewrite IH]. Qed.

Lemma substring_append_l (s t : string) :
  String.substring 0 (String.length s) (s +:+ t) = s.
Proof.
  induction s as [|c s IH]; simpl.
  - now destruct t.
  - now rewrite IH.
Qed.

Lemma lastChar_append (s : string) (c d : ascii) :
  lastChar (s +:+ String c (String d EmptyString)) = Some d.
Proof.
  induction s as [|x s IH]; [reflexivity |].
  simpl. rewrite IH. now destruct s.
Qed.

Lemma trimHyphen_separator (t : string) : trimHyphen (t +:+ " -") = t.
Proof.
  unfold trimHyphen. rewrite lastChar_append. simpl Ascii.eqb. cbv iota.
  unfold substring. rewrite length_append. simpl String.length.
  replace (Z.of_nat (String.length t + 2) - 2)%Z with (Z.of_nat (String.length t)) by lia.
  rewrite (Z.min_l 0) by lia.
  rewrite (Z.min_l (Z.of_nat (String.length t))) by lia.
  rewrite !Z.max_r by lia.
  rewrite Z.min_l by lia.
  rewrite Z.sub_0_r, Nat2Z.id. simpl Z.to_nat.
  apply substring_append_l.
Qed.

(** *** The matcher and its captures *)

Lemma repeatMatcher_continues {R} (p : ascii -> bool) (k : string -> option R)
    (s : string) :
  forall lo hi x, repeatMatcher p lo hi s k = Some x -> exists s', k s' = Some x.
Proof.
  induction s as [|c s IH]; intros lo hi x; cbn [repeatMatcher].
  - destruct lo; [eauto | discriminate].
  - destruct (p c && negb (isZero hi)).
    + destruct (repeatMatcher p (Nat.pred lo) (Nat.pred <$> hi) s k) eqn:E.
      * intros [= <-]. exact (IH _ _ _ E).
      * destruct lo; [eauto | discriminate].
    + destruct lo; [eauto | discriminate].
Qed.

Lemma matcher_sets {R} (r : regex) :
  forall (s : string) (caps : list (option string))
         (k : string -> list (option string) -> option R) (x : R),
    matcher r s caps k = Some x ->
    exists s' caps', k s' caps' = Some x /\ sets r caps caps'.
Proof.
  induction r as [p | r1 IH1 r2 IH2 | r1 IH1 r2 IH2 | p lo hi | r IH | n r IH];
    intros s caps k x; cbn [matcher sets].
  - destruct s as [|c s]; [discriminate |]. destruct (p c); [eauto | discriminate].
  - intros H. apply IH1 in H as (s1 & c1 & H & Hs1).
    apply IH2 in H as (s2 & c2 & H & Hs2). eauto 6.
  - destruct (matcher r1 s caps k) eqn:E.
    + intros [= <-]. apply IH1 in E as (s1 & c1 & H & Hs). eauto.
    + intros H. apply IH2 in H as (s1 & c1 & H & Hs). eauto.
  - intros H. apply repeatMatcher_continues in H as [s' H]. eauto.
  - destruct (matcher r s caps k) eqn:E.
    + intros [= <-]. apply IH in E as (s1 & c1 & H & Hs). eauto.
    + eauto.
  - intros H. apply IH in H as (s1 & c1 & H & Hs). eauto 7.
Qed.

(** The arrays [exec] returns for the file-name pattern: the tag, the title,
    the episode token and the separator are captured, and the two groups
    of the [SxxEyy] token are captured together. *)
Lemma exec_fansubRegEx_parts (name : string) (parts : list (option string)) :
  exec fansubRegEx 7 name = Some parts ->
  exists whole tag ttl seasonP epNumP sep,
    parts = [Some whole; Some tag; Some ttl; seasonP; Some epNumP; None; None; Some sep]
    \/ exists seasonAlt epNumAlt,
         parts = [Some whole; Some tag; Some ttl; seasonP; Some epNumP;
                  Some seasonAlt; Some epNumAlt; Some sep].
Proof.
  unfold exec. intros H. apply matcher_sets in H as (s' & caps' & H & Hs).
  injection H as <-.
  cbn [sets fansubRegEx tagRegEx episodeRegEx] in Hs.
  repeat match goal with
         | H : exists _, _ |- _ => destruct H
         | H : _ /\ _ |- _ => destruct H
         end.
  subst.
  repeat match goal with
         | H : _ \/ _ |- _ => destruct H
         | H : exists _, _ |- _ => destruct H
         | H : _ /\ _ |- _ => destruct H
         end;
    subst; cbn; eauto 12.
Qed.

Lemma serializeFansubFilename_total (name : string) (parts : list (option string)) :
  exec fansubRegEx 7 name = Some parts ->
  exists d, serializeFansubFilename parts = Some d.
Proof.
  intros H. apply exec_fansubRegEx_parts in H
    as (whole & tag & ttl & seasonP & epNumP & sep & [-> | (sa & ea & ->)]).
  - cbn. eauto.
  - unfold serializeFansubFilename. cbn [part mjoin lookup list_lookup mbind option_bind].
    cbn. destruct (truthyStr sa); eauto.
Qed.

(** The parser returns on every name: no capture it reads is undefined. *)
Lemma parseFansubFilename_total (name : string) :
  exists r, parseFansubFilename name = Some r.
Proof.
  unfold parseFansubFilename.
  destruct (exec fansubRegEx 7 name) as [parts|] eqn:E; [| eauto].
  destruct (serializeFansubFilename_total name parts E) as [d ->]. cbn. eauto.
Qed.


(** *** The parser *)

(** C5: a name outside the grammar is a batch failure exactly when it
    contains "(batch)" or "[batch]" in any case, and an unrecognized-format
    failure otherwise; "[Group] Show Title (Batch).mkv" is a batch
    failure. *)
Theorem parse_failure_kind (name : string) :
  ~ matchesGrammar name ->
  (exists e,
     parseFansubFilename name = Some (inl e) /\ fileName e = name /\
     (failureKind e = Some BatchRelease <->
        includesCI name "(batch)" = true \/ includesCI name "[batch]" = true) /\
     (failureKind e = Some UnrecognizedFormat <->
        ~ (includesCI name "(batch)" = true \/ includesCI name "[batch]" = true)))
  /\ parseFansubFilename "[Group] Show Title (Batch).mkv"
     = Some (inl {| parseError := batchMessage;
                    fileName := "[Group] Show Title (Batch).mkv" |}).
Proof.
  intros Hno. split; [| reflexivity].
  unfold matchesGrammar in Hno. unfold parseFansubFilename.
  destruct (exec fansubRegEx 7 name) as [parts|] eqn:E.
  { exfalso. apply Hno. eauto. }
  eexists. split; [reflexivity |]. split; [reflexivity |].
  unfold includesCI. change (toLowerCase "(batch)") with "(batch)".
  change (toLowerCase "[batch]") with "[batch]".
  assert (Kb : failureKind {| parseError := batchMessage; fileName := name |}
               = Some BatchRelease) by reflexivity.
  assert (Ku : failureKind {| parseError := unsupportedMessage; fileName := name |}
               = Some UnrecognizedFormat) by reflexivity.
  destruct (includes (toLowerCase name) "(batch)") eqn:E1;
    destruct (includes (toLowerCase name) "[batch]") eqn:E2;
    cbn [orb]; rewrite ?Kb, ?Ku; intuition congruence.
Qed.

Lemma parse_failure_kind_witness :
  failureKind {| parseError := batchMessage;
                 fileName := "[Group] Show Title (Batch).mkv" |} = Some BatchRelease
  /\ parseFansubFilename "[Group] Show Title (Batch).mkv"
     = Some (inl {| parseError := batchMessage;
                    fileName := "[Group] Show Title (Batch).mkv" |}).
Proof.
  split; [reflexivity |].
  apply (parse_failure_kind "[Group] Show Title (Batch).mkv").
  vm_compute. intros [x Hx]. discriminate Hx.
Defined.

(** C8: "[Group] Show Title - 07.mkv" parses to episode 7 of "Show Title"
    by "Group"; whenever the title a name is matched with ends in the
    separator " -", the parser returns the title without it. *)
Theorem parse_example_and_hyphen_trim :
  parseFansubFilename "[Group] Show Title - 07.mkv"
  = Some (inr {| fansub := "Group"; title := "Show Title"; epNum := Num 7;
                 paddedEpNum := "07"; season := None |})
  /\ forall (name : string) (parts : list (option string)) (t : string),
       exec fansubRegEx 7 name = Some parts ->
       part 2 parts = Some (t +:+ " -") ->
       exists d, parseFansubFilename name = Some (inr d) /\ title d = t.
Proof.
  split; [reflexivity |].
  intros name parts t Hexec Ht. unfold parseFansubFilename. rewrite Hexec.
  destruct (serializeFansubFilename_total name parts Hexec) as [d Hd].
  rewrite Hd. exists d. split; [reflexivity |].
  unfold serializeFansubFilename in Hd. rewrite Ht in Hd.
  destruct (part 1 parts) as [f|]; [| discriminate]. cbn [mbind option_bind] in Hd.
  destruct (truthyPart (part 5 parts)).
  - destruct (part 6 parts); cbn [mbind option_bind] in Hd; [| discriminate].
    injection Hd as <-. cbn [title]. apply trimHyphen_separator.
  - destruct (part 4 parts); cbn [mbind option_bind] in Hd; [| discriminate].
    injection Hd as <-. cbn [title]. apply trimHyphen_separator.
Qed.

Lemma parse_example_and_hyphen_trim_witness :
  exists d,
    parseFansubFilename "[Group] Show Title - 07.mkv" = Some (inr d)
    /\ title d = "Show Title".
Proof.
  apply (proj2 parse_example_and_hyphen_trim
           "[Group] Show Title - 07.mkv"
           [Some "[Group] Show Title - 07."; Some "Group"; Some "Show Title -";
            None; Some "07"; None; None; Some "."]
           "Show Title");
    reflexivity.
Defined.

(** *** The matcher on a character class *)

Lemma repeatMatcher_sound {R} (p : ascii -> bool) (s : string)
    (k : string -> option R) :
  forall lo, is_Some (repeatMatcher p lo None s k) ->
  exists s1 s2, s = s1 +:+ s2 /\ allChars p s1 = true /\
                lo <= String.length s1 /\ is_Some (k s2).
Proof.
  induction s as [|c s IH]; intros lo H; simpl in H.
  - destruct lo; [| destruct H; discriminate].
    exists "", "". repeat split; auto.
  - destruct (p c) eqn:Pc; simpl in H.
    + destruct (repeatMatcher p (Nat.pred lo) None s k) eqn:E.
      * destruct (IH (Nat.pred lo)) as (s1 & s2 & -> & Hall & Hlen & Hk).
        { rewrite E. eauto. }
        exists (String c s1), s2. simpl. rewrite Pc, Hall. repeat split; auto. lia.
      * destruct lo; [| destruct H; discriminate].
        exists "", (String c s). repeat split; auto.
    + destruct lo; [| destruct H; discriminate].
      exists "", (String c s). repeat split; auto.
Qed.

Lemma repeatMatcher_complete {R} (p : ascii -> bool) (k : string -> option R)
    (s1 : string) :
  forall s2 lo, allChars p s1 = true -> lo <= String.length s1 -> is_Some (k s2) ->
  is_Some (repeatMatcher p lo None (s1 +:+ s2) k).
Proof.
  induction s1 as [|c s1 IH]; intros s2 lo Hall Hlen Hk; simpl in *.
  - assert (lo = 0) as -> by lia.
    destruct s2 as [|c s2]; simpl; [assumption |].
    destruct (p c); simpl; [| assumption].
    destruct (repeatMatcher p 0 None s2 k); eauto.
  - apply andb_prop in Hall as [Pc Hall]. rewrite Pc. simpl.
    destruct (IH s2 (Nat.pred lo) Hall ltac:(lia) Hk) as [x ->]. eauto.
Qed.

Lemma lit_true (c x : ascii) : lit c x = true <-> x = c.
Proof. unfold lit. rewrite Ascii.eqb_eq. split; congruence. Qed.

Lemma exec_tagRegEx (n : string) :
  is_Some (exec tagRegEx 1 n) <-> startsWithTag n.
Proof.
  unfold exec, tagRegEx, startsWithTag. cbn [matcher]. split.
  - destruct n as [|c n]; [intros [? ?]; discriminate |].
    destruct (lit "[" c) eqn:Ec; [| intros [? ?]; discriminate].
    apply lit_true in Ec as ->. intros H.
    apply repeatMatcher_sound in H as (tag & s2 & -> & Hall & Hlen & Hk).
    destruct s2 as [|d rest]; [destruct Hk; discriminate |].
    destruct (lit "]" d) eqn:Ed; [| destruct Hk; discriminate].
    apply lit_true in Ed as ->.
    exists tag, rest. repeat split; auto.
    intros ->. simpl in Hlen. lia.
  - intros (tag & rest & -> & Hne & Hall).
    change ("[" +:+ tag +:+ "]" +:+ rest) with (String "[" (tag +:+ String "]" rest)).
    cbn [lit Ascii.eqb]. simpl (Ascii.eqb _ _). cbv iota.
    apply repeatMatcher_complete; [assumption | | simpl; eauto].
    destruct tag; [congruence | simpl; lia].
Qed.

(** *** The candidate filter *)

Lemma readdirSync_directory (w : World) (dir : path) :
  isDirectory (fs w) dir = true ->
  readdirSync dir w = (Ret (omap (direntOf dir) (fs w)), w).
Proof.
  unfold isDirectory, readdirSync. destruct dir as [|s dir]; [reflexivity |].
  destruct (lookupPath (fs w) (s :: dir)) as [[c|]|]; try discriminate. reflexivity.
Qed.

Lemma direntOf_regular (dir : path) (e : path * node) (n : string) :
  direntOf dir e = Some {| name := n; isFile := true |} <->
  exists c, e = (dir ++ [n], File c).
Proof.
  destruct e as [p k]. unfold direntOf. cbn [fst snd]. split.
  - destruct (last p) as [m|] eqn:L; [| discriminate].
    case_bool_decide as Hp; [| discriminate].
    intros H. injection H as -> Hk. subst p.
    destruct k as [c|]; [eauto | discriminate].
  - intros [c H]. injection H as -> ->.
    rewrite last_snoc. rewrite bool_decide_eq_true_2 by reflexivity. reflexivity.
Qed.

Lemma regular_names (dir : path) (f : FS) (n : string) :
  n ∈ name <$> List.filter isFile (omap (direntOf dir) f) <-> regularFileIn f dir n.
Proof.
  unfold regularFileIn. rewrite list_elem_of_fmap. split.
  - intros (d & -> & Hd). apply list_elem_of_In, filter_In in Hd as [Hd Hf].
    apply list_elem_of_In, list_elem_of_omap in Hd as (e & He & Hde).
    destruct d as [m b]. cbn in Hf. subst b.
    apply direntOf_regular in Hde as [c ->]. eauto.
  - intros [c Hc]. exists {| name := n; isFile := true |}. split; [reflexivity |].
    apply list_elem_of_In, filter_In. split; [| reflexivity].
    apply list_elem_of_In, list_elem_of_omap. eexists. split; [exact Hc |].
    apply direntOf_regular. eauto.
Qed.





(** *** The synchroniser *)

Section Synchroniser.

Variable remote : string -> Body -> option (num * option num).

Lemma lookup_alter_same (f : KitsuCacheItem -> KitsuCacheItem)
    (h : list KitsuCacheItem) (a : nat) (o : KitsuCacheItem) :
  h !! a = Some o -> alter f a h !! a = Some (f o).
Proof. intros H. rewrite list_lookup_alter, H. now rewrite decide_True. Qed.

Lemma lookup_alter_other (f : KitsuCacheItem -> KitsuCacheItem)
    (h : list KitsuCacheItem) (a b : nat) :
  a <> b -> alter f a h !! b = h !! b.
Proof. intros H. rewrite list_lookup_alter. now rewrite decide_False. Qed.

Ltac run_heap Ho :=
  repeat first
    [ progress cbn [heap cache fileBindings disk fs trace withHeap withCache
                    withFileBindings withDisk withFs withTrace fst snd negb]
    | rewrite (lookup_alter_same _ _ _ _ (lookup_alter_same _ _ _ _ Ho))
    | rewrite (lookup_alter_same _ _ _ _ Ho)
    | rewrite Ho ].

(** [saveAnimeProgress] goes through the stages above. *)
Lemma saveAnimeProgress_run (opt : ProgressOptions.t) (w : World) (o : KitsuCacheItem) :
  heap w !! ProgressOptions.anime opt = Some o ->
  saveAnimeProgress remote opt w
  = synchronised opt o w (remote (request opt o).1 (request opt o).2).
Proof.
  intros Ho. unfold saveAnimeProgress. cbv zeta.
  unfold mbind, M_bind, deref. rewrite Ho.
  unfold Kitsu_updateAnime, emit, modify, mbind, M_bind. cbn [fst snd].
  fold (request opt o).
  destruct (remote _ _) as [[p n]|] eqn:Er; [| reflexivity].
  unfold mret, M_ret, update, modify. run_heap Ho.
  unfold synchronised. fold (completed p n).
  destruct (completed p n) eqn:Ec.
  - unfold Kitsu_removeAnimeFromCache, Printer_print, emit, modify, mbind, M_bind, deref.
    run_heap Ho. reflexivity.
  - run_heap Ho.
    unfold Kitsu_getFileBinding, gets.
    cbn [fileBindings withHeap withTrace libID setEpCount setEpProgress].
    destruct (truthyPart (fileBindings w !! libID o)) eqn:Eb; cbn [negb].
    + unfold mret, M_ret, modify. run_heap Ho. reflexivity.
    + unfold parsedFansubFilename.
      destruct (parseFansubFilename (ProgressOptions.fileName opt)) as [[e|d]|];
        try reflexivity.
      unfold mret, M_ret, Kitsu_setFileBinding, modify. run_heap Ho. reflexivity.
Qed.

Lemma completed_true (p : num) (n : option num) :
  gt p (Num 0) = true -> looseEq p n = true -> completed p n = true.
Proof. intros H1 H2. unfold completed. now rewrite H1, H2. Qed.

Lemma afterCompletion_evicted (opt : ProgressOptions.t) (o : KitsuCacheItem)
    (w : World) (p : num) (n : option num) :
  evicted o w (afterCompletion opt o w p n).
Proof.
  unfold evicted, afterCompletion.
  cbn [heap cache fileBindings disk fs trace withHeap withCache withFileBindings
       withDisk withFs withTrace afterUpdate].
  repeat split.
  - intros a o' Ha Ho'.
    apply list_elem_of_In, filter_In in Ha as [_ Ha].
    unfold hasLibID in Ha. rewrite Ho' in Ha.
    apply negb_true_iff, String.eqb_neq in Ha. exact Ha.
  - do 3 eexists. rewrite <- !app_assoc. reflexivity.
Qed.

(** C1: when the remote confirms a progress above zero that equals the
    episode count, the synchroniser returns with the entry evicted: it is
    removed from the cache, no binding is written, the configuration is
    saved, and nothing is written back to the cache.  So it is for an entry
    one episode short of its count whose update confirms the count. *)
Theorem completion_evicts_entry (opt : ProgressOptions.t) (w : World)
    (o : KitsuCacheItem) :
  heap w !! ProgressOptions.anime opt = Some o ->
  (forall p n,
     remote (request opt o).1 (request opt o).2 = Some (p, n) ->
     gt p (Num 0) = true -> looseEq p n = true ->
     exists w', saveAnimeProgress remote opt w = (Ret tt, w') /\ evicted o w w')
  /\ (forall c : Z,
        epCount o = Num c -> epProgress o = Num (c - 1) -> (0 <= c - 1)%Z ->
        remote (request opt o).1 (request opt o).2 = Some (Num c, Some (Num c)) ->
        exists w', saveAnimeProgress remote opt w = (Ret tt, w') /\ evicted o w w').
Proof.
  intros Ho.
  assert (G : forall p n,
     remote (request opt o).1 (request opt o).2 = Some (p, n) ->
     gt p (Num 0) = true -> looseEq p n = true ->
     exists w', saveAnimeProgress remote opt w = (Ret tt, w') /\ evicted o w w').
  { intros p n Hr Hp Hn. rewrite (saveAnimeProgress_run opt w o Ho), Hr.
    unfold synchronised. rewrite (completed_true p n Hp Hn).
    eexists. split; [reflexivity | apply afterCompletion_evicted]. }
  split; [exact G |].
  intros c _ _ Hc Hr. apply (G _ _ Hr); simpl.
  - apply Z.ltb_lt. lia.
  - apply Z.eqb_refl.
Qed.

Lemma heap_afterUpdate (opt : ProgressOptions.t) (o : KitsuCacheItem) (w : World)
    (p : num) (n : option num) :
  heap w !! ProgressOptions.anime opt = Some o ->
  heap (afterUpdate opt o w p n) !! ProgressOptions.anime opt = Some (recorded o p n).
Proof.
  intros Ho. unfold afterUpdate. cbn [heap withHeap].
  now rewrite (lookup_alter_same _ _ _ _ (lookup_alter_same _ _ _ _ Ho)).
Qed.

Lemma not_update_in (l : list event) :
  Forall (fun e => match e with UpdateAnime _ _ => False | _ => True end) l ->
  forall u b, UpdateAnime u b ∉ l.
Proof.
  intros H u b Hin. rewrite Forall_forall in H. apply (H _ Hin).
Qed.

(** C2: the remote is asked, once, to set the forced episode number when
    that number is truthy and the file's episode number otherwise; with its
    answer back, the entry holds the confirmed progress and the returned
    episode count, or 0 when no count came back. *)
Theorem remote_update_and_entry (opt : ProgressOptions.t) (w : World)
    (o : KitsuCacheItem) :
  heap w !! ProgressOptions.anime opt = Some o ->
  request opt o
  = ("https://kitsu.io/api/edge/library-entries/" +:+ libID o,
     {| data := {| id := libID o; type_ := "library-entries";
                   attributes :=
                     {| progress :=
                          if truthy (ProgressOptions.forcedEpNum opt)
                          then ProgressOptions.forcedEpNum opt
                          else ProgressOptions.epNum opt |} |} |})
  /\ forall p n,
       remote (request opt o).1 (request opt o).2 = Some (p, n) ->
       exists r w' rest o',
         saveAnimeProgress remote opt w = (r, w')
         /\ trace w' = trace w ++ UpdateAnime (request opt o).1 (request opt o).2 :: rest
         /\ (forall u b, UpdateAnime u b ∉ rest)
         /\ heap w' !! ProgressOptions.anime opt = Some o'
         /\ epProgress o' = p
         /\ epCount o' = match n with Some c => c | None => Num 0 end.
Proof.
  intros Ho. split; [reflexivity |].
  intros p n Hr. rewrite (saveAnimeProgress_run opt w o Ho), Hr.
  pose proof (heap_afterUpdate opt o w p n Ho) as Hh.
  unfold synchronised.
  destruct (completed p n);
    [| destruct (truthyPart (fileBindings w !! libID o));
       [| destruct (parseFansubFilename (ProgressOptions.fileName opt)) as [[e|d]|]]].
  all: eexists _, _, _, (recorded o p n).
  all: split; [reflexivity |].
  all: unfold afterCompletion, afterWriteBack;
       cbn [heap cache fileBindings disk fs trace withHeap withCache withFileBindings
            withDisk withFs withTrace].
  all: split;
    [ unfold afterUpdate; cbn [trace withHeap withTrace];
      rewrite <- ?app_assoc; cbn [app]; try reflexivity;
      rewrite <- (app_nil_r (trace w ++ _)) at 1; rewrite <- app_assoc; reflexivity
    | split; [apply not_update_in; repeat constructor
             | split; [exact Hh | split; [reflexivity | now destruct n]]]].
Qed.






(** *** The frame of a synchronisation *)

Lemma arraySet_within {A} (l : list A) (i : Z) (x : A) :
  (0 <= i < Z.of_nat (length l))%Z -> arraySet l i x = <[Z.to_nat i := x]> l.
Proof.
  intros Hi. unfold arraySet.
  destruct (Z.ltb_spec i 0); [lia |].
  destruct (Nat.eqb_spec (Z.to_nat i) (length l)); [lia | reflexivity].
Qed.

Lemma findIndexFrom_elem (a : nat) (l : list nat) :
  a ∈ l ->
  forall i0 : Z,
    (i0 <= findIndexFrom (Nat.eqb a) i0 l)%Z
    /\ l !! Z.to_nat (findIndexFrom (Nat.eqb a) i0 l - i0) = Some a.
Proof.
  induction l as [|x l IH]; intros Hin i0; [inversion Hin |].
  cbn [findIndexFrom]. destruct (Nat.eqb a x) eqn:E.
  - apply Nat.eqb_eq in E as <-. rewrite Z.sub_diag. split; [lia | reflexivity].
  - apply Nat.eqb_neq in E. apply elem_of_cons in Hin as [-> | Hin]; [congruence |].
    destruct (IH Hin (i0 + 1)%Z) as [Hle Hlk]. split; [lia |].
    replace (findIndexFrom (Nat.eqb a) (i0 + 1) l - i0)%Z
      with (Z.succ (findIndexFrom (Nat.eqb a) (i0 + 1) l - (i0 + 1))) by lia.
    rewrite Z2Nat.inj_succ by lia. exact Hlk.
Qed.

Lemma filter_all {A} (P : A -> bool) (l : list A) :
  (forall j b, l !! j = Some b -> P b = true) -> List.filter P l = l.
Proof.
  induction l as [|x l IH]; intros H; [reflexivity |].
  cbn [List.filter]. rewrite (H 0 x eq_refl). f_equal.
  apply IH. intros j b Hj. apply (H (S j) b Hj).
Qed.

Lemma filter_delete {A} (P : A -> bool) (l : list A) :
  forall (i : nat) (a : A),
    l !! i = Some a -> P a = false ->
    (forall j b, l !! j = Some b -> j <> i -> P b = true) ->
    List.filter P l = delete i l.
Proof.
  induction l as [|x l IH]; intros i a Hi Pa Hall; [discriminate |].
  destruct i as [|i]; cbn [List.filter delete list_delete].
  - injection Hi as ->. rewrite Pa. apply filter_all.
    intros j b Hj. apply (Hall (S j) b Hj). lia.
  - rewrite (Hall 0 x eq_refl) by lia. f_equal.
    apply (IH i a Hi Pa). intros j b Hj Hne. apply (Hall (S j) b Hj). lia.
Qed.

Lemma heap_frame_afterUpdate (opt : ProgressOptions.t) (o : KitsuCacheItem)
    (w : World) (p : num) (n : option num) (b : nat) :
  b <> ProgressOptions.anime opt ->
  heap (afterUpdate opt o w p n) !! b = heap w !! b.
Proof.
  intros Hb. unfold afterUpdate. cbn [heap withHeap].
  rewrite !lookup_alter_other by congruence. reflexivity.
Qed.

(** The heap and the cache after a synchronisation, whatever its outcome. *)
Lemma saveAnimeProgress_frame (opt : ProgressOptions.t) (w : World)
    (o : KitsuCacheItem) (r : result unit) (w' : World) :
  heap w !! ProgressOptions.anime opt = Some o ->
  saveAnimeProgress remote opt w = (r, w') ->
  (forall b, b <> ProgressOptions.anime opt -> heap w' !! b = heap w !! b)
  /\ (cache w' = cache w
      \/ cache w' = arraySet (cache w) (ProgressOptions.cacheIndex opt)
                      (ProgressOptions.anime opt)
      \/ cache w'
         = List.filter (fun a => negb (hasLibID (libID o) (heap w') a)) (cache w)).
Proof.
  intros Ho. rewrite (saveAnimeProgress_run opt w o Ho). unfold synchronised.
  destruct (remote _ _) as [[p n]|]; [| intros [= _ <-]; auto].
  destruct (completed p n);
    [| destruct (truthyPart (fileBindings w !! libID o));
       [| destruct (parseFansubFilename (ProgressOptions.fileName opt)) as [[e|d]|]]].
  all: intros [= _ <-].
  all: split; [intros b Hb; apply (heap_frame_afterUpdate opt o w p n b Hb) |].
  all: unfold afterCompletion, afterWriteBack;
       cbn [heap cache fileBindings disk fs trace withHeap withCache withFileBindings
            withDisk withFs withTrace afterUpdate]; auto.
Qed.

(** C10: the resolver hands over a fresh copy of the matched entry and the
    index of the entry in the cache; a synchronisation changes no object
    but that copy, and changes the cache only by writing the copy at that
    index or by evicting the entry, so that every other entry of the cache
    is still there and unchanged. *)
Theorem synchronisation_frame :
  (forall (w : World) (a : nat) (o : KitsuCacheItem),
     heap w !! a = Some o ->
     a ∈ cache w ->
     (forall b, b ∈ cache w -> b < length (heap w)) ->
     exists i : Z,
       validateCachedAnime [a] w
       = (Ret (length (heap w), i), withHeap (heap w ++ [o]) w)
       /\ (0 <= i)%Z
       /\ cache w !! Z.to_nat i = Some a
       /\ (length (heap w) ∉ cache w)
       /\ (heap w ++ [o]) !! length (heap w) = Some o
       /\ (forall b, b < length (heap w) -> (heap w ++ [o]) !! b = heap w !! b))
  /\ (forall (opt : ProgressOptions.t) (w : World) (o o0 : KitsuCacheItem) (a0 : nat),
        let c := ProgressOptions.anime opt in
        let i := Z.to_nat (ProgressOptions.cacheIndex opt) in
        let w' := (saveAnimeProgress remote opt w).2 in
        heap w !! c = Some o ->
        c ∉ cache w ->
        (0 <= ProgressOptions.cacheIndex opt)%Z ->
        cache w !! i = Some a0 -> heap w !! a0 = Some o0 -> libID o0 = libID o ->
        (forall j a' o', cache w !! j = Some a' -> heap w !! a' = Some o' ->
                         libID o' = libID o -> j = i) ->
        (forall b, b <> c -> heap w' !! b = heap w !! b)
        /\ (cache w' = cache w
            \/ cache w' = <[i := c]> (cache w)
            \/ cache w' = delete i (cache w))
        /\ (forall j a', j <> i -> cache w !! j = Some a' ->
                         a' ∈ cache w' /\ heap w' !! a' = heap w !! a')).
Proof.
  split.
  - intros w a o Ho Hin Hvalid.
    exists (findIndex (Nat.eqb a) (cache w)).
    destruct (findIndexFrom_elem a (cache w) Hin 0%Z) as [Hle Hlk].
    rewrite Z.sub_0_r in Hlk. fold (findIndex (Nat.eqb a) (cache w)) in Hle, Hlk.
    repeat split; try assumption.
    + unfold validateCachedAnime, structuredClone, alloc, Config_getKitsuProp_cache, gets.
      unfold mbind, M_bind, deref. rewrite Ho. reflexivity.
    + intros Hc. apply Hvalid in Hc. lia.
    + rewrite lookup_app_r by lia. now rewrite Nat.sub_diag.
    + intros b Hb. now rewrite lookup_app_l.
  - intros opt w o o0 a0 c i w' Ho Hfresh Hi Ha0 Ho0 Hid Huniq.
    destruct (saveAnimeProgress remote opt w) as [r w''] eqn:Erun.
    cbn [snd] in w'. subst w'.
    destruct (saveAnimeProgress_frame opt w o r w'' Ho Erun) as [Hheap Hcache].
    assert (Hother : forall a', a' ∈ cache w -> heap w'' !! a' = heap w !! a').
    { intros a' Ha'. apply Hheap. intros ->. exact (Hfresh Ha'). }
    assert (Hc3 : cache w'' = cache w \/ cache w'' = <[i := c]> (cache w)
                  \/ cache w'' = delete i (cache w)).
    { destruct Hcache as [Hc | [Hc | Hc]]; [auto | |].
      - right; left. rewrite Hc. apply arraySet_within.
        apply lookup_lt_Some in Ha0. unfold i in Ha0. lia.
      - right; right. rewrite Hc. apply (filter_delete _ _ i a0 Ha0).
        + unfold hasLibID. rewrite Hother by (eapply list_elem_of_lookup_2; eauto).
          rewrite Ho0, Hid, String.eqb_refl. reflexivity.
        + intros j b Hj Hne. unfold hasLibID.
          rewrite Hother by (eapply list_elem_of_lookup_2; eauto).
          destruct (heap w !! b) as [ob|] eqn:Eb; [| reflexivity].
          destruct (String.eqb_spec (libID ob) (libID o)) as [E|]; [| reflexivity].
          exfalso. apply Hne. exact (Huniq j b ob Hj Eb E). }
    repeat split; try assumption.
    + destruct Hc3 as [Hc | [Hc | Hc]]; rewrite Hc.
      * eapply list_elem_of_lookup_2; eauto.
      * apply (list_elem_of_lookup_2 _ j). rewrite list_lookup_insert_ne by congruence.
        assumption.
      * destruct (Nat.lt_ge_cases j i) as [Hlt | Hge].
        -- apply (list_elem_of_lookup_2 _ j). now rewrite list_lookup_delete_lt.
        -- destruct j as [|j]; [lia |].
           apply (list_elem_of_lookup_2 _ j). rewrite list_lookup_delete_ge by lia. assumption.
    + apply Hother. eapply list_elem_of_lookup_2; eauto.
Qed.

End Synchroniser.

Lemma completion_evicts_entry_witness :
  exists w',
    saveAnimeProgress (Example.confirming (Some (Num 12))) Example.options Example.world
    = (Ret tt, w')
    /\ evicted Example.show Example.world w'.
Proof.
  apply (proj2 (completion_evicts_entry (Example.confirming (Some (Num 12)))
                  Example.options Example.world Example.show eq_refl) 12%Z);
    [reflexivity | reflexivity | lia | reflexivity].
Defined.

Lemma remote_update_and_entry_witness :
  exists r w' rest o',
    saveAnimeProgress (Example.confirming None) Example.options Example.world = (r, w')
    /\ trace w' = [] ++ UpdateAnime "https://kitsu.io/api/edge/library-entries/101"
                          {| data := {| id := "101"; type_ := "library-entries";
                                        attributes := {| progress := Num 12 |} |} |}
                        :: rest
    /\ (forall u b, UpdateAnime u b ∉ rest)
    /\ heap w' !! 2 = Some o'
    /\ epProgress o' = Num 12
    /\ epCount o' = Num 0.
Proof.
  apply (proj2 (remote_update_and_entry (Example.confirming None)
                  Example.options Example.world Example.show eq_refl)
           (Num 12) None eq_refl).
Defined.


Lemma synchronisation_frame_witness :
  let w' := (saveAnimeProgress (Example.confirming (Some (Num 24)))
               Example.options Example.world).2 in
  (forall b, b <> 2 -> heap w' !! b = heap Example.world !! b)
  /\ (cache w' = [0; 1] \/ cache w' = [2; 1] \/ cache w' = [1])
  /\ (forall j a', j <> 0 -> cache Example.world !! j = Some a' ->
                   a' ∈ cache w' /\ heap w' !! a' = heap Example.world !! a').
Proof.
  apply (proj2 (synchronisation_frame (Example.confirming (Some (Num 24))))
           Example.options Example.world Example.show Example.show 0).
  - reflexivity.
  - vm_compute. intros H. inversion H as [|? ? ? H1]; subst.
    inversion H1 as [|? ? ? H2]; subst. inversion H2.
  - vm_compute. discriminate.
  - reflexivity.
  - reflexivity.
  - reflexivity.
  - intros [|[|j]] a' o'; vm_compute; try discriminate; [reflexivity |].
    intros [= <-] [= <-]. discriminate.
Defined.

(** *** The relocator *)


Lemma tryCreateWatchedDir_exists (workingDir : list string) (w : World) :
  is_Some (lookupPath (fs w) (pathJoin workingDir ["watched"])) ->
  tryCreateWatchedDir workingDir w = (Ret tt, w).
Proof.
  intros H. unfold tryCreateWatchedDir, existsSync, gets, mbind, M_bind.
  rewrite bool_decide_eq_true_2 by exact H. reflexivity.
Qed.



Lemma isPrefix_drop (p q : list string) :
  isPrefix p q = true -> q = p ++ drop (length p) q.
Proof.
  unfold isPrefix. rewrite bool_decide_eq_true. intros H.
  rewrite <- H at 1. now rewrite take_drop.
Qed.

Lemma isPrefix_refl (p : list string) : isPrefix p p = true.
Proof. unfold isPrefix. apply bool_decide_eq_true. apply firstn_all. Qed.

Lemma lookupPath_reroot_new (old new : list string) (k : node)
    (f : list (list string * node)) :
  lookupPath f old = Some k -> lookupPath f new = None ->
  lookupPath (reroot old new f) new = Some k.
Proof.
  induction f as [|[q k'] f IH]; [discriminate |].
  cbn [lookupPath reroot fmap list_fmap fst snd].
  case_bool_decide as Hq.
  - subst q. intros [= ->] _. rewrite isPrefix_refl.
    rewrite drop_all, app_nil_r. cbn [lookupPath].
    now rewrite bool_decide_eq_true_2.
  - intros Hold. case_bool_decide as Hn; [discriminate |]. intros Hnew.
    specialize (IH Hold Hnew). unfold reroot in IH.
    destruct (isPrefix old q) eqn:Ep; cbn [lookupPath].
    + rewrite bool_decide_eq_false_2; [exact IH |].
      intros E. apply Hq. rewrite (isPrefix_drop _ _ Ep).
      apply (f_equal length) in E. rewrite length_app in E.
      assert (L : length (drop (length old) q) = 0) by lia.
      apply nil_length_inv in L. rewrite L. now rewrite app_nil_r.
    + rewrite bool_decide_eq_false_2 by exact Hn. exact IH.
Qed.

Lemma lookupPath_reroot_old (old new : list string) (f : list (list string * node)) :
  length old < length new ->
  lookupPath (reroot old new f) old = None.
Proof.
  intros Hlen. induction f as [|[q k'] f IH]; [reflexivity |].
  cbn [lookupPath reroot fmap list_fmap fst snd]. unfold reroot in IH.
  destruct (isPrefix old q) eqn:Ep; cbn [lookupPath].
  - rewrite bool_decide_eq_false_2; [exact IH |].
    intros E. apply (f_equal length) in E. rewrite length_app in E. lia.
  - rewrite bool_decide_eq_false_2; [exact IH |].
    intros ->. rewrite isPrefix_refl in Ep. discriminate.
Qed.



(** *** The resolver *)

Lemma filterObjects_run (p : KitsuCacheItem -> bool) (w : World) (l : list nat) :
  (forall a, a ∈ l -> is_Some (heap w !! a)) ->
  filterObjects p l w
  = (Ret (List.filter
            (fun a => match heap w !! a with Some o => p o | None => false end) l),
     w).
Proof.
  induction l as [|a l IH]; intros Hv; [reflexivity |].
  cbn [filterObjects List.filter]. unfold mbind, M_bind, deref.
  destruct (Hv a ltac:(left)) as [o Ho]. rewrite Ho.
  rewrite IH by (intros b Hb; apply Hv; now right).
  reflexivity.
Qed.



Lemma matchingEntries_valid (epName : string) (w : World) (a : nat) :
  a ∈ matchingEntries epName w -> a ∈ cache w /\ is_Some (heap w !! a).
Proof.
  unfold matchingEntries. intros H. apply list_elem_of_In, filter_In in H as [Hin Hp].
  split; [now apply list_elem_of_In |].
  destruct (heap w !! a); [eauto | discriminate].
Qed.

Lemma matchesEpName_true (epName : string) (o : KitsuCacheItem) :
  matchesEpName epName o = true <->
  includes (toLowerCase (jpTitle o)) epName = true
  \/ includes (toLowerCase (enTitle o)) epName = true
  \/ exists s, s ∈ synonyms o /\ includes (toLowerCase s) epName = true.
Proof.
  unfold matchesEpName. rewrite !orb_true_iff, existsb_exists.
  setoid_rewrite <- list_elem_of_In.
  split; [intros [[H | H] | H] | intros [H | [H | H]]]; auto.
Qed.

(** C4, as stated, fails: the cache is searched with the episode name even
    when the entry has a binding.  The entry "Show Title" is bound to the
    file title "shw ttl"; the episode name "show" selects it, though the
    binding occurs in none of its titles. *)
Lemma cache_search_ignores_binding :
  let w := withFileBindings {[ "101" := "shw ttl" ]} Example.world in
  filterObjects (matchesEpName "show") (cache w) w = (Ret [0], w)
  /\ heap w !! 0 = Some Example.show
  /\ fileBindings w !! libID Example.show = Some "shw ttl"
  /\ specCacheMatch (fileBindings w) "show" Example.show = false.
Proof. vm_compute. repeat split. Qed.

(** *** Ambiguous files *)


Lemma substring_length (s : string) :
  forall m, String.length (String.substring 0 m s) = Nat.min m (String.length s).
Proof.
  induction s as [|c s IH]; intros [|m]; cbn; try reflexivity.
  now rewrite IH.
Qed.

Lemma substring_all (s : string) :
  forall m, String.length s <= m -> String.substring 0 m s = s.
Proof.
  induction s as [|c s IH]; intros [|m] H; cbn in *; try reflexivity; try lia.
  f_equal. apply IH. lia.
Qed.

Lemma substring_from_start (str : string) (n : nat) :
  substring str 0 (Z.of_nat n) = String.substring 0 (Nat.min n (String.length str)) str.
Proof.
  unfold substring. f_equal; lia.
Qed.









Section Invocation.

Variable remote : string -> Body -> option (num * option num).

Lemma watchAnime_resolved (epName fileEpNumStr forcedEpNumStr : string)
    (workingDir : list string) (w w1 : World) (a : nat) (o : KitsuCacheItem) :
  tryCreateWatchedDir workingDir w = (Ret tt, w1) ->
  (forall b, b ∈ cache w1 -> is_Some (heap w1 !! b)) ->
  matchingEntries epName w1 = [a] ->
  heap w1 !! a = Some o ->
  watchAnime remote epName (fileEpNumStr, forcedEpNumStr) workingDir w
  = selectFile remote (nullish (fileBindings w1 !! libID o) epName)
      fileEpNumStr forcedEpNumStr workingDir
      (length (heap w1)) (findIndex (Nat.eqb a) (cache w1))
      (withHeap (heap w1 ++ [o]) w1).
Proof.
  intros Htry Hvalid Hmatch Ho. unfold watchAnime.
  unfold mbind at 1, M_bind at 1. rewrite Htry.
  unfold mbind at 1, M_bind at 1. unfold Kitsu_animeCache at 1, gets at 1.
  unfold mbind at 1, M_bind at 1.
  rewrite (filterObjects_run _ w1 (cache w1) Hvalid).
  fold (matchingEntries epName w1). rewrite Hmatch.
  unfold mbind at 1, M_bind at 1.
  unfold validateCachedAnime, structuredClone, alloc, Config_getKitsuProp_cache, gets.
  unfold mbind at 1, M_bind at 1. unfold mbind at 1, M_bind at 1.
  unfold deref at 1. rewrite Ho.
  unfold mbind at 1, M_bind at 1. unfold mret at 1, M_ret at 1.
  unfold mbind at 1, M_bind at 1. unfold deref at 1.
  cbn [heap withHeap cache].
  rewrite lookup_app_r by lia. rewrite Nat.sub_diag. cbn [lookup list_lookup].
  unfold mbind at 1, M_bind at 1. unfold Kitsu_getFileBinding, gets.
  cbn [fileBindings withHeap]. reflexivity.
Qed.



(** C4, amended: the cache is searched with the episode name the caller
    gave, as it is: an entry matches exactly when that name occurs in its
    lower-cased original title, localized title or one of its synonyms,
    which for a lower-case name is the case-insensitive match.  The binding
    of the entry so resolved, or the episode name when it has none, is the
    term the file names are searched with. *)
Theorem cache_search_term :
  (forall (w : World) (epName : string),
     (forall b, b ∈ cache w -> is_Some (heap w !! b)) ->
     exists l,
       filterObjects (matchesEpName epName) (cache w) w = (Ret l, w)
       /\ (forall a, a ∈ l <->
             a ∈ cache w
             /\ exists o, heap w !! a = Some o
                /\ (includes (toLowerCase (jpTitle o)) epName = true
                    \/ includes (toLowerCase (enTitle o)) epName = true
                    \/ exists s, s ∈ synonyms o
                                 /\ includes (toLowerCase s) epName = true))
       /\ (toLowerCase epName = epName ->
           forall a, a ∈ l <->
             a ∈ cache w
             /\ exists o, heap w !! a = Some o
                /\ (includesCI (jpTitle o) epName = true
                    \/ includesCI (enTitle o) epName = true
                    \/ exists s, s ∈ synonyms o /\ includesCI s epName = true)))
  /\ (forall (epName fileEpNumStr forcedEpNumStr : string) (workingDir : list string)
             (w w1 : World) (a : nat) (o : KitsuCacheItem),
        tryCreateWatchedDir workingDir w = (Ret tt, w1) ->
        (forall b, b ∈ cache w1 -> is_Some (heap w1 !! b)) ->
        matchingEntries epName w1 = [a] ->
        heap w1 !! a = Some o ->
        watchAnime remote epName (fileEpNumStr, forcedEpNumStr) workingDir w
        = selectFile remote
            (match fileBindings w1 !! libID o with Some b => b | None => epName end)
            fileEpNumStr forcedEpNumStr workingDir
            (length (heap w1)) (findIndex (Nat.eqb a) (cache w1))
            (withHeap (heap w1 ++ [o]) w1)).
Proof.
  split; [| exact watchAnime_resolved].
  intros w epName Hvalid. eexists. split; [apply filterObjects_run; exact Hvalid |].
  assert (Hin : forall a,
    a ∈ List.filter
          (fun a => match heap w !! a with
                    | Some o => matchesEpName epName o
                    | None => false
                    end) (cache w) <->
    a ∈ cache w
    /\ exists o, heap w !! a = Some o
       /\ (includes (toLowerCase (jpTitle o)) epName = true
           \/ includes (toLowerCase (enTitle o)) epName = true
           \/ exists s, s ∈ synonyms o /\ includes (toLowerCase s) epName = true)).
  { intros a. rewrite list_elem_of_In, filter_In, <- list_elem_of_In. split.
    - intros [Ha Hm]. split; [exact Ha |].
      destruct (heap w !! a) as [o|]; [| discriminate].
      exists o. split; [reflexivity | now apply matchesEpName_true].
    - intros [Ha (o & Ho & Hm)]. split; [exact Ha |].
      rewrite Ho. now apply matchesEpName_true. }
  split; [exact Hin |].
  intros Hlow a. rewrite Hin. unfold includesCI. rewrite Hlow. reflexivity.
Qed.


End Invocation.

Lemma cached_valid (b : nat) :
  b ∈ cache Example.cached -> is_Some (heap Example.cached !! b).
Proof.
  revert b. apply Forall_forall. repeat constructor; eexists; reflexivity.
Defined.

Lemma cache_search_term_witness :
  exists l,
    filterObjects (matchesEpName "show") (cache Example.cached) Example.cached
    = (Ret l, Example.cached)
    /\ 0 ∈ l.
Proof.
  destruct (proj1 (cache_search_term (Example.confirming None))
              Example.cached "show" cached_valid) as (l & Hrun & Hin & _).
  exists l. split; [exact Hrun |].
  apply Hin. split; [repeat constructor |].
  exists Example.show. split; [reflexivity | left; reflexivity].
Defined.



(** ** Further properties of the invocation *)

Section WholeInvocation.

Variable remote : string -> Body -> option (num * option num).


Lemma selectFile_single (fileTitle fileEpNumStr forcedEpNumStr : string)
    (workingDir : list string) (validAnime : nat) (cacheIndex : Z) (w : World)
    (n : string) :
  isDirectory (fs w) workingDir = true ->
  candidateFiles (fs w) workingDir fileTitle fileEpNumStr = [n] ->
  selectFile remote fileTitle fileEpNumStr forcedEpNumStr workingDir
    validAnime cacheIndex w
  = match
      saveAnimeProgress remote
        {| ProgressOptions.anime := validAnime;
           ProgressOptions.cacheIndex := cacheIndex;
           ProgressOptions.epNum := Number fileEpNumStr;
           ProgressOptions.forcedEpNum := Number forcedEpNumStr;
           ProgressOptions.fileName := n |} w
    with
    | (Ret _, w2) => moveFileToWatchedDir n workingDir w2
    | (Exit status, w2) => (Exit status, w2)
    | (Throw e, w2) => (Throw e, w2)
    end.
Proof.
  intros Hdir Hone. unfold selectFile, filterFansubFilenames.
  unfold mbind at 1, M_bind at 1. unfold mbind at 1, M_bind at 1.
  rewrite (readdirSync_directory w workingDir Hdir).
  unfold mret at 1, M_ret at 1.
  fold (candidateFiles (fs w) workingDir fileTitle fileEpNumStr).
  rewrite Hone. unfold mbind at 1, M_bind at 1.
  destruct (saveAnimeProgress remote _ w) as [[[]| |] w2]; reflexivity.
Qed.

(** What [watchAnime] does once one entry and one file are found. *)
Lemma watchAnime_single (epName fileEpNumStr forcedEpNumStr : string)
    (workingDir : list string) (w w1 : World) (a : nat) (o : KitsuCacheItem)
    (n : string) :
  resolvedTo epName workingDir w w1 a o ->
  candidateFiles (fs w1) workingDir (fileTitleOf epName w1 o) fileEpNumStr = [n] ->
  watchAnime remote epName (fileEpNumStr, forcedEpNumStr) workingDir w
  = match
      saveAnimeProgress remote (optionsOf fileEpNumStr forcedEpNumStr n w1 a)
        (withCopy o w1)
    with
    | (Ret _, w2) => moveFileToWatchedDir n workingDir w2
    | (Exit status, w2) => (Exit status, w2)
    | (Throw e, w2) => (Throw e, w2)
    end.
Proof.
  intros (Htry & Hvalid & Hmatch & Ho & Hdir) Hone.
  rewrite (watchAnime_resolved remote epName fileEpNumStr forcedEpNumStr workingDir
             w w1 a o Htry Hvalid Hmatch Ho).
  exact (selectFile_single _ _ _ _ _ _ (withCopy o w1) n Hdir Hone).
Qed.

Lemma copy_lookup (o : KitsuCacheItem) (w1 : World) :
  heap (withCopy o w1) !! length (heap w1) = Some o.
Proof.
  unfold withCopy. cbn [heap withHeap].
  rewrite lookup_app_r by lia. now rewrite Nat.sub_diag.
Qed.

(** X1: when no cache entry matches the episode name, the invocation ends
    with status 1 after the "Anime Not Found" chain; no file is looked at,
    nothing is copied, sent or saved. *)
Theorem no_entry_is_fatal (epName fileEpNumStr forcedEpNumStr : string)
    (workingDir : list string) (w w1 : World) :
  tryCreateWatchedDir workingDir w = (Ret tt, w1) ->
  (forall b, b ∈ cache w1 -> is_Some (heap w1 !! b)) ->
  matchingEntries epName w1 = [] ->
  watchAnime remote epName (fileEpNumStr, forcedEpNumStr) workingDir w
  = (Exit 1,
     withTrace
       (trace w1 ++
        [ConChainError
           [""; ";r;Anime Not Found -- for 3 possible reasons";
            ";bc;(1) The Anime is not in your ;by;Kitsu ;bc;watch list";
            ";bc;(2) You forgot to ;by;-rc ;bc;after updating ;by;Kitsu ;bc;watch list";
            ";bc;(3) File name of the Anime has not been bound to the cache yet"]])
       w1).
Proof.
  intros Htry Hvalid Hnone. unfold watchAnime.
  unfold mbind at 1, M_bind at 1. rewrite Htry.
  unfold mbind at 1, M_bind at 1. unfold Kitsu_animeCache at 1, gets at 1.
  unfold mbind at 1, M_bind at 1.
  rewrite (filterObjects_run _ w1 (cache w1) Hvalid).
  fold (matchingEntries epName w1). rewrite Hnone. reflexivity.
Qed.


(** X3: when the remote update fails, the failure propagates: for episode
    strings that are decimal numerals, the request is the only thing that
    happened; the file is not moved, the cache and the bindings are
    untouched and nothing is saved. *)
Theorem remote_failure_propagates (epName fileEpNumStr forcedEpNumStr : string)
    (workingDir : list string) (w w1 : World) (a : nat) (o : KitsuCacheItem)
    (n : string) :
  resolvedTo epName workingDir w w1 a o ->
  candidateFiles (fs w1) workingDir (fileTitleOf epName w1 o) fileEpNumStr = [n] ->
  isDecimal fileEpNumStr = true -> isDecimal forcedEpNumStr = true ->
  let req := request (optionsOf fileEpNumStr forcedEpNumStr n w1 a) o in
  remote req.1 req.2 = None ->
  watchAnime remote epName (fileEpNumStr, forcedEpNumStr) workingDir w
  = (Throw RemoteUpdateFailure,
     withTrace (trace w1 ++ [UpdateAnime req.1 req.2]) (withCopy o w1)).
Proof.
  intros Hres Hone _ _ req Hfail.
  rewrite (watchAnime_single epName fileEpNumStr forcedEpNumStr workingDir
             w w1 a o n Hres Hone).
  rewrite (saveAnimeProgress_run remote
             (optionsOf fileEpNumStr forcedEpNumStr n w1 a) (withCopy o w1) o
             (copy_lookup o w1)).
  fold req. rewrite Hfail. reflexivity.
Qed.

End WholeInvocation.

Lemma ready_resolved :
  resolvedTo "show" ["anime"] Example.ready Example.ready 0 Example.show.
Proof.
  repeat split; try reflexivity.
  apply Forall_forall. repeat constructor; eexists; reflexivity.
Defined.

Lemma no_entry_is_fatal_witness :
  exists w',
    watchAnime (Example.confirming None) "zzz" ("12", "") ["anime"] Example.ready
    = (Exit 1, w')
    /\ cache w' = cache Example.ready /\ heap w' = heap Example.ready.
Proof.
  eexists. split.
  - apply (no_entry_is_fatal (Example.confirming None) "zzz" "12" "" ["anime"]
             Example.ready Example.ready eq_refl (proj1 (proj2 ready_resolved)) eq_refl).
  - split; reflexivity.
Defined.


Lemma remote_failure_propagates_witness :
  exists w',
    watchAnime (fun _ _ => None) "show" ("12", "") ["anime"] Example.ready
    = (Throw RemoteUpdateFailure, w')
    /\ fs w' = fs Example.ready /\ disk w' = None.
Proof.
  eexists. split.
  - apply (remote_failure_propagates (fun _ _ => None) "show" "12" "" ["anime"]
             Example.ready Example.ready 0 Example.show
             "[Group] Show Title - 12.mkv" ready_resolved eq_refl eq_refl eq_refl
             eq_refl).
  - split; reflexivity.
Defined.

(** *** Synchronisation, path by path *)

Lemma moveFileToWatchedDir_moves (fileName : string) (workingDir : list string)
    (w : World) (c : string) :
  lookupPath (fs w) (pathJoin workingDir [fileName]) = Some (File c) ->
  lookupPath (fs w) (pathJoin workingDir ["watched"]) = Some Dir ->
  lookupPath (fs w) (pathJoin workingDir ["watched"; fileName]) = None ->
  moveFileToWatchedDir fileName workingDir w
  = (Ret tt,
     withFs (reroot (pathJoin workingDir [fileName])
               (pathJoin workingDir ["watched"; fileName]) (fs w)) w).
Proof.
  intros Hsrc Hdir Hdst.
  assert (Hne : fileName <> "watched").
  { intros ->. rewrite Hsrc in Hdir. discriminate. }
  unfold moveFileToWatchedDir, renameSync. rewrite Hsrc.
  assert (Hp : parent (pathJoin workingDir ["watched"; fileName])
               = pathJoin workingDir ["watched"]).
  { unfold parent, pathJoin.
    change ["watched"; fileName] with (["watched"] ++ [fileName]).
    rewrite app_assoc. apply removelast_last. }
  assert (Hd : isDirectory (fs w) (pathJoin workingDir ["watched"]) = true).
  { unfold isDirectory.
    destruct (pathJoin workingDir ["watched"]) as [|x q] eqn:E; [reflexivity |].
    now rewrite Hdir. }
  rewrite Hp, Hd. cbn [negb].
  rewrite bool_decide_eq_false_2.
  2:{ unfold pathJoin. intros E. apply app_inv_head in E. discriminate. }
  assert (Hpre : isPrefix (pathJoin workingDir [fileName])
                   (pathJoin workingDir ["watched"; fileName]) = false).
  { unfold isPrefix, pathJoin. apply bool_decide_eq_false_2.
    rewrite length_app. cbn [length]. rewrite take_app_add'. 2: reflexivity.
    cbn [take]. intros E. apply app_inv_head in E. congruence. }
  rewrite Hpre, Hdst. reflexivity.
Qed.

Lemma moveFileToWatchedDir_not_directory (fileName : string)
    (workingDir : list string) (w : World) (c c' : string) :
  lookupPath (fs w) (pathJoin workingDir [fileName]) = Some (File c) ->
  lookupPath (fs w) (pathJoin workingDir ["watched"]) = Some (File c') ->
  moveFileToWatchedDir fileName workingDir w = (Throw ENOTDIR, w).
Proof.
  intros Hsrc Hfile. unfold moveFileToWatchedDir, renameSync. rewrite Hsrc.
  assert (Hp : parent (pathJoin workingDir ["watched"; fileName])
               = pathJoin workingDir ["watched"]).
  { unfold parent, pathJoin.
    change ["watched"; fileName] with (["watched"] ++ [fileName]).
    rewrite app_assoc. apply removelast_last. }
  assert (Hd : isDirectory (fs w) (pathJoin workingDir ["watched"]) = false).
  { unfold isDirectory.
    destruct (pathJoin workingDir ["watched"]) as [|x q] eqn:E.
    - unfold pathJoin in E. apply app_eq_nil in E as [_ E]. discriminate.
    - now rewrite Hfile. }
  rewrite Hp, Hd. cbn [negb]. unfold unreachable.
  assert (Ht : throughFile (fs w) (pathJoin workingDir ["watched"; fileName]) = true).
  { unfold throughFile. apply existsb_exists.
    exists (length workingDir + 1). split.
    - apply in_seq. unfold pathJoin. rewrite length_app. cbn. lia.
    - unfold pathJoin in *.
      change ["watched"; fileName] with (["watched"] ++ [fileName]).
      rewrite app_assoc.
      rewrite take_app_length' by (rewrite length_app; reflexivity).
      now rewrite Hfile. }
  now rewrite Ht.
Qed.

Section Paths.

Variable remote : string -> Body -> option (num * option num).

Lemma completed_iff (p : num) (n : option num) :
  completed p n = true <-> exists z, (0 < z)%Z /\ p = Num z /\ n = Some (Num z).
Proof.
  unfold completed, gt, looseEq. split.
  - destruct p as [|z]; [discriminate |]. destruct n as [[|y]|]; cbn;
      rewrite ?andb_false_r; try discriminate.
    rewrite andb_true_iff, Z.ltb_lt, Z.eqb_eq. intros [Hz <-]. eauto.
  - intros (z & Hz & -> & ->). rewrite andb_true_iff, Z.ltb_lt, Z.eqb_eq. auto.
Qed.

(** What a synchronisation that gets an answer leaves when it has no
    binding to derive: the series is complete, or its entry is bound. *)
Lemma saveAnimeProgress_settled (opt : ProgressOptions.t) (w : World)
    (o : KitsuCacheItem) (p : num) (n : option num) :
  heap w !! ProgressOptions.anime opt = Some o ->
  remote (request opt o).1 (request opt o).2 = Some (p, n) ->
  completed p n = true \/ truthyPart (fileBindings w !! libID o) = true ->
  exists w2 logs,
    saveAnimeProgress remote opt w = (Ret tt, w2)
    /\ fs w2 = fs w
    /\ heap w2 !! ProgressOptions.anime opt = Some (recorded o p n)
    /\ (forall b, b <> ProgressOptions.anime opt -> heap w2 !! b = heap w !! b)
    /\ fileBindings w2 = fileBindings w
    /\ disk w2 = Some (omap (fun a => heap w2 !! a) (cache w2), fileBindings w2)
    /\ trace w2
       = trace w ++ [UpdateAnime (request opt o).1 (request opt o).2;
                     PrinterPrint logs; ConfigSave]
    /\ (completed p n = false ->
        cache w2 = arraySet (cache w) (ProgressOptions.cacheIndex opt)
                     (ProgressOptions.anime opt)).
Proof.
  intros Ho Hr Hs. rewrite (saveAnimeProgress_run remote opt w o Ho), Hr.
  unfold synchronised.
  pose proof (heap_afterUpdate opt o w p n Ho) as Hh.
  pose proof (heap_frame_afterUpdate opt o w p n) as Hf.
  destruct (completed p n) eqn:Ec.
  2:{ destruct Hs as [Hs | Hs]; [discriminate |]. rewrite Hs. 
      eexists _, _. split; [reflexivity |].
      unfold afterWriteBack;
        cbn [heap cache fileBindings disk fs trace withHeap withCache withFileBindings
             withDisk withFs withTrace].
      repeat split; try exact Hh; try exact Hf.
      unfold afterUpdate; cbn [trace withHeap withTrace].
      rewrite <- !app_assoc. reflexivity. }
  eexists _, _. split; [reflexivity |].
  unfold afterCompletion;
    cbn [heap cache fileBindings disk fs trace withHeap withCache withFileBindings
         withDisk withFs withTrace].
  repeat split; try exact Hh; try exact Hf; try discriminate.
  unfold afterUpdate; cbn [trace withHeap withTrace].
  rewrite <- !app_assoc. reflexivity.
Qed.

(** X4: the series is evicted exactly when the confirmed progress is a
    positive number equal to the returned count: an unknown count, a
    progress of zero or [NaN] never evict; and a synchronisation that does
    not evict, given an index within the cache, leaves the cache with the
    number of entries it had: as it was, or with the copy at that index. *)
Theorem eviction_only_on_completion :
  (forall p n,
     completed p n = true <-> exists z, (0 < z)%Z /\ p = Num z /\ n = Some (Num z))
  /\ forall (opt : ProgressOptions.t) (w : World) (o : KitsuCacheItem) (p : num)
            (n : option num),
       heap w !! ProgressOptions.anime opt = Some o ->
       remote (request opt o).1 (request opt o).2 = Some (p, n) ->
       (0 <= ProgressOptions.cacheIndex opt < Z.of_nat (length (cache w)))%Z ->
       ~ (exists z, (0 < z)%Z /\ p = Num z /\ n = Some (Num z)) ->
       let w' := (saveAnimeProgress remote opt w).2 in
       length (cache w') = length (cache w)
       /\ (cache w' = cache w
           \/ cache w' = <[Z.to_nat (ProgressOptions.cacheIndex opt)
                            := ProgressOptions.anime opt]> (cache w)).
Proof.
  split; [exact completed_iff |].
  intros opt w o p n Ho Hr Hi Hnot w'. subst w'.
  assert (Hc : completed p n = false).
  { destruct (completed p n) eqn:E; [| reflexivity].
    exfalso. apply Hnot. now apply completed_iff. }
  rewrite (saveAnimeProgress_run remote opt w o Ho), Hr.
  unfold synchronised. rewrite Hc.
  assert (Hset : arraySet (cache w) (ProgressOptions.cacheIndex opt)
                   (ProgressOptions.anime opt)
                 = <[Z.to_nat (ProgressOptions.cacheIndex opt)
                      := ProgressOptions.anime opt]> (cache w)).
  { now apply arraySet_within. }
  destruct (truthyPart (fileBindings w !! libID o));
    [| destruct (parseFansubFilename (ProgressOptions.fileName opt)) as [[e|d]|]];
    cbn [snd]; unfold afterWriteBack;
    cbn [heap cache fileBindings disk fs trace withHeap withCache withFileBindings
         withDisk withFs withTrace afterUpdate];
    rewrite ?Hset, ?length_insert; auto.
Qed.

Lemma omap_insert_valid {A B} (g h : A -> option B) (c : A) (y : B) (l : list A) :
  g c = Some y ->
  (forall a, a ∈ l -> is_Some (h a) /\ g a = h a) ->
  forall i, i < length l ->
  omap g (<[i := c]> l) = <[i := y]> (omap h l).
Proof.
  intros Hc. induction l as [|x l IH]; intros Hl i Hi; [cbn in Hi; lia |].
  destruct (Hl x ltac:(left)) as [[hx Hx] Hgx].
  assert (Hl' : forall a, a ∈ l -> is_Some (h a) /\ g a = h a)
    by (intros a Ha; apply Hl; now right).
  destruct i as [|i].
  - cbn [insert list_insert omap list_omap]. rewrite Hc, Hx.
    cbn [insert list_insert]. f_equal.
    clear -Hl'. induction l as [|z l IH]; [reflexivity |].
    cbn [omap list_omap]. rewrite (proj2 (Hl' z ltac:(left))).
    rewrite IH by (intros a Ha; apply Hl'; now right). reflexivity.
  - cbn [insert list_insert omap list_omap]. rewrite Hgx, Hx.
    cbn [insert list_insert]. f_equal. apply (IH Hl'). cbn in Hi. lia.
Qed.

(** X5: what is saved for a bound series that is not finished.  A
    synchronisation that does not evict, for an entry whose library id has
    a binding that is not empty, given the index of the entry and a copy
    that is not in the cache, returns whatever the file is called; the
    bindings are as they were; and the saved configuration is the cache as
    it was saved before, with the entry at that index showing the
    confirmed progress and the returned count. *)
Theorem bound_entry_written_back (opt : ProgressOptions.t) (w : World)
    (o : KitsuCacheItem) (p : num) (n : option num) (b : string) :
  heap w !! ProgressOptions.anime opt = Some o ->
  remote (request opt o).1 (request opt o).2 = Some (p, n) ->
  completed p n = false ->
  fileBindings w !! libID o = Some b -> b <> "" ->
  (0 <= ProgressOptions.cacheIndex opt < Z.of_nat (length (cache w)))%Z ->
  (forall a, a ∈ cache w -> is_Some (heap w !! a)) ->
  ProgressOptions.anime opt ∉ cache w ->
  exists w',
    saveAnimeProgress remote opt w = (Ret tt, w')
    /\ cache w' = <[Z.to_nat (ProgressOptions.cacheIndex opt)
                     := ProgressOptions.anime opt]> (cache w)
    /\ fileBindings w' = fileBindings w
    /\ disk w'
       = Some (<[Z.to_nat (ProgressOptions.cacheIndex opt) := recorded o p n]>
                 (omap (fun a => heap w !! a) (cache w)),
               fileBindings w).
Proof.
  intros Ho Hr Hc Hb Hne Hi Hvalid Hfresh.
  assert (Ht : truthyPart (fileBindings w !! libID o) = true).
  { rewrite Hb. destruct b; [congruence | reflexivity]. }
  destruct (saveAnimeProgress_settled opt w o p n Ho Hr (or_intror Ht))
    as (w2 & logs & Hrun & _ & Hheap & Hframe & Hbind & Hdisk & _ & Hnot).
  specialize (Hnot Hc).
  assert (Hcache : cache w2 = <[Z.to_nat (ProgressOptions.cacheIndex opt)
                                 := ProgressOptions.anime opt]> (cache w)).
  { rewrite Hnot. now apply arraySet_within. }
  exists w2. split; [exact Hrun |]. split; [exact Hcache |]. split; [exact Hbind |].
  rewrite Hdisk, Hbind, Hcache. do 2 f_equal.
  apply omap_insert_valid; [exact Hheap | | lia].
  intros a Ha. split; [now apply Hvalid |].
  apply Hframe. intros ->. exact (Hfresh Ha).
Qed.

End Paths.

Lemma eviction_only_on_completion_witness :
  let w' := (saveAnimeProgress (Example.confirming None) Example.options
               Example.world).2 in
  length (cache w') = 2 /\ (cache w' = [0; 1] \/ cache w' = [2; 1]).
Proof.
  apply (proj2 (eviction_only_on_completion (Example.confirming None))
           Example.options Example.world Example.show (Num 12) None
           eq_refl eq_refl).
  - vm_compute. split; [discriminate | reflexivity].
  - intros (z & _ & _ & H). discriminate H.
Defined.

Lemma bound_world_valid (a : nat) :
  a ∈ cache Example.boundWorld -> is_Some (heap Example.boundWorld !! a).
Proof.
  revert a. apply Forall_forall. repeat constructor; eexists; reflexivity.
Defined.

Lemma bound_entry_written_back_witness :
  exists w',
    saveAnimeProgress (Example.confirming (Some (Num 24))) Example.options
      Example.boundWorld = (Ret tt, w')
    /\ cache w' = [2; 1]
    /\ fileBindings w' = {[ "101" := "shw ttl" ]}
    /\ disk w'
       = Some ([recorded Example.show (Num 12) (Some (Num 24)); Example.other],
               {[ "101" := "shw ttl" ]}).
Proof.
  apply (bound_entry_written_back (Example.confirming (Some (Num 24)))
           Example.options Example.boundWorld Example.show (Num 12) (Some (Num 24))
           "shw ttl" eq_refl eq_refl eq_refl eq_refl).
  - discriminate.
  - vm_compute. split; [discriminate | reflexivity].
  - exact bound_world_valid.
  - vm_compute. intros H. inversion H as [|? ? ? H1]; subst.
    inversion H1 as [|? ? ? H2]; subst. inversion H2.
Defined.

Section EndToEnd.

Variable remote : string -> Body -> option (num * option num).

Lemma resolved_index (epName : string) (workingDir : list string)
    (w w1 : World) (a : nat) (o : KitsuCacheItem) :
  resolvedTo epName workingDir w w1 a o ->
  (0 <= findIndex (Nat.eqb a) (cache w1))%Z
  /\ cache w1 !! Z.to_nat (findIndex (Nat.eqb a) (cache w1)) = Some a
  /\ a < length (heap w1).
Proof.
  intros (_ & _ & Hmatch & Ho & _).
  assert (Hin : a ∈ cache w1).
  { apply (matchingEntries_valid epName w1 a). rewrite Hmatch. now left. }
  destruct (findIndexFrom_elem a (cache w1) Hin 0%Z) as [Hle Hlk].
  rewrite Z.sub_0_r in Hlk. repeat split; try assumption.
  apply lookup_lt_Some in Ho. exact Ho.
Qed.

(** X6: the whole invocation when all goes well for a series that is bound
    and not finished: one entry, one file found with its binding, episode
    strings that are decimal numerals, an answer from the remote,
    [watched] in place and free of a file of that name.  The invocation
    returns; the file is in [watched] and no longer in the working
    directory; the cache holds the updated copy in the place of the entry,
    whose original object is left as it was; the bindings are as they
    were; and the saved configuration is the cache so updated with those
    bindings. *)
Theorem watchAnime_updates_and_moves (epName fileEpNumStr forcedEpNumStr : string)
    (workingDir : list string) (w w1 : World) (a : nat) (o : KitsuCacheItem)
    (n c b : string) (p : num) (cnt : option num) :
  resolvedTo epName workingDir w w1 a o ->
  fileBindings w1 !! libID o = Some b -> b <> "" ->
  candidateFiles (fs w1) workingDir b fileEpNumStr = [n] ->
  isDecimal fileEpNumStr = true -> isDecimal forcedEpNumStr = true ->
  let req := request (optionsOf fileEpNumStr forcedEpNumStr n w1 a) o in
  remote req.1 req.2 = Some (p, cnt) ->
  completed p cnt = false ->
  lookupPath (fs w1) (pathJoin workingDir [n]) = Some (File c) ->
  lookupPath (fs w1) (pathJoin workingDir ["watched"]) = Some Dir ->
  lookupPath (fs w1) (pathJoin workingDir ["watched"; n]) = None ->
  exists w' i,
    watchAnime remote epName (fileEpNumStr, forcedEpNumStr) workingDir w = (Ret tt, w')
    /\ lookupPath (fs w') (pathJoin workingDir ["watched"; n]) = Some (File c)
    /\ lookupPath (fs w') (pathJoin workingDir [n]) = None
    /\ cache w1 !! i = Some a
    /\ cache w' = <[i := length (heap w1)]> (cache w1)
    /\ heap w' !! length (heap w1) = Some (recorded o p cnt)
    /\ heap w' !! a = Some o
    /\ fileBindings w' = fileBindings w1
    /\ disk w' = Some (omap (fun b => heap w' !! b) (cache w'), fileBindings w').
Proof.
  intros Hres Hb Hne Hone _ _ req Hr Hc Hsrc Hdir Hdst.
  destruct (resolved_index epName workingDir w w1 a o Hres) as (Hi0 & Hi & Ha).
  assert (Hone' : candidateFiles (fs w1) workingDir (fileTitleOf epName w1 o)
                    fileEpNumStr = [n]).
  { unfold fileTitleOf. rewrite Hb. exact Hone. }
  rewrite (watchAnime_single remote epName fileEpNumStr forcedEpNumStr workingDir
             w w1 a o n Hres Hone').
  assert (Ht : truthyPart (fileBindings (withCopy o w1) !! libID o) = true).
  { cbn [fileBindings withCopy withHeap]. rewrite Hb.
    destruct b; [congruence | reflexivity]. }
  destruct (saveAnimeProgress_settled remote
              (optionsOf fileEpNumStr forcedEpNumStr n w1 a) (withCopy o w1) o p cnt
              (copy_lookup o w1) Hr (or_intror Ht))
    as (w2 & logs & Hrun & Hfs & Hheap & Hframe & Hbind & Hdisk & _ & Hnot).
  specialize (Hnot Hc).
  rewrite Hrun.
  cbn [fs withCopy withHeap] in Hfs.
  rewrite (moveFileToWatchedDir_moves n workingDir w2 c)
    by (rewrite Hfs; assumption).
  exists (withFs (reroot (pathJoin workingDir [n])
                    (pathJoin workingDir ["watched"; n]) (fs w2)) w2),
         (Z.to_nat (findIndex (Nat.eqb a) (cache w1))).
  cbn [heap cache fileBindings disk fs withFs].
  split; [reflexivity |].
  split; [apply lookupPath_reroot_new; rewrite Hfs; assumption |].
  split; [apply lookupPath_reroot_old; unfold pathJoin; rewrite !length_app; cbn; lia |].
  split; [exact Hi |].
  split.
  { rewrite Hnot. unfold optionsOf.
    cbn [ProgressOptions.cacheIndex ProgressOptions.anime cache withCopy withHeap].
    apply arraySet_within. apply lookup_lt_Some in Hi. lia. }
  split; [exact Hheap |].
  split.
  { rewrite Hframe by (cbn; lia). unfold withCopy. cbn [heap withHeap].
    rewrite lookup_app_l by exact Ha. destruct Hres as (_ & _ & _ & Ho & _). exact Ho. }
  split; [exact Hbind | exact Hdisk].
Qed.

(** X7: [existsSync] does not tell a directory from a file.  When
    [watched] exists as a regular file, nothing is created; for a series
    that is bound or that the answer completes, and episode strings that
    are decimal numerals, the synchronisation is carried out and saved, and
    the rename then throws [ENOTDIR]: the file stays in the working
    directory although the progress is recorded remotely and locally. *)
Theorem watched_not_a_directory (epName fileEpNumStr forcedEpNumStr : string)
    (workingDir : list string) (w : World) (a : nat) (o : KitsuCacheItem)
    (n c c' : string) (p : num) (cnt : option num) :
  lookupPath (fs w) (pathJoin workingDir ["watched"]) = Some (File c') ->
  (forall b, b ∈ cache w -> is_Some (heap w !! b)) ->
  matchingEntries epName w = [a] ->
  heap w !! a = Some o ->
  isDirectory (fs w) workingDir = true ->
  candidateFiles (fs w) workingDir (fileTitleOf epName w o) fileEpNumStr = [n] ->
  lookupPath (fs w) (pathJoin workingDir [n]) = Some (File c) ->
  isDecimal fileEpNumStr = true -> isDecimal forcedEpNumStr = true ->
  let req := request (optionsOf fileEpNumStr forcedEpNumStr n w a) o in
  remote req.1 req.2 = Some (p, cnt) ->
  completed p cnt = true \/ truthyPart (fileBindings w !! libID o) = true ->
  exists w' logs,
    watchAnime remote epName (fileEpNumStr, forcedEpNumStr) workingDir w
    = (Throw ENOTDIR, w')
    /\ fs w' = fs w
    /\ trace w' = trace w ++ [UpdateAnime req.1 req.2; PrinterPrint logs; ConfigSave]
    /\ heap w' !! length (heap w) = Some (recorded o p cnt)
    /\ disk w' = Some (omap (fun b => heap w' !! b) (cache w'), fileBindings w').
Proof.
  intros Hfile Hvalid Hmatch Ho Hdir Hone Hsrc _ _ req Hr Hs.
  assert (Htry : tryCreateWatchedDir workingDir w = (Ret tt, w)).
  { apply tryCreateWatchedDir_exists. rewrite Hfile. eauto. }
  assert (Hres : resolvedTo epName workingDir w w a o) by (repeat split; assumption).
  rewrite (watchAnime_single remote epName fileEpNumStr forcedEpNumStr workingDir
             w w a o n Hres Hone).
  destruct (saveAnimeProgress_settled remote
              (optionsOf fileEpNumStr forcedEpNumStr n w a) (withCopy o w) o p cnt
              (copy_lookup o w) Hr Hs)
    as (w2 & logs & Hrun & Hfs & Hheap & _ & _ & Hdisk & Htrace & _).
  rewrite Hrun. cbn [fs withCopy withHeap] in Hfs.
  rewrite (moveFileToWatchedDir_not_directory n workingDir w2 c c')
    by (rewrite Hfs; assumption).
  exists w2, logs. repeat split; assumption.
Qed.

End EndToEnd.

Lemma bound_resolved :
  resolvedTo "show" ["anime"] Example.bound Example.bound 0 Example.show.
Proof.
  repeat split; try reflexivity.
  apply Forall_forall. repeat constructor; eexists; reflexivity.
Defined.

Lemma watchAnime_updates_and_moves_witness :
  exists w' i,
    watchAnime (Example.confirming (Some (Num 24))) "show" ("12", "") ["anime"]
      Example.bound = (Ret tt, w')
    /\ lookupPath (fs w') ["anime"; "watched"; "[Group] Show Title - 12.mkv"]
       = Some (File "video-12")
    /\ lookupPath (fs w') ["anime"; "[Group] Show Title - 12.mkv"] = None
    /\ cache Example.bound !! i = Some 0
    /\ cache w' = <[i := 2]> [0; 1]
    /\ heap w' !! 2 = Some (recorded Example.show (Num 12) (Some (Num 24)))
    /\ heap w' !! 0 = Some Example.show
    /\ fileBindings w' = {[ "101" := "show title" ]}
    /\ disk w' = Some (omap (fun b => heap w' !! b) (cache w'), fileBindings w').
Proof.
  apply (watchAnime_updates_and_moves (Example.confirming (Some (Num 24)))
           "show" "12" "" ["anime"] Example.bound Example.bound 0 Example.show
           "[Group] Show Title - 12.mkv" "video-12" "show title"
           (Num 12) (Some (Num 24)) bound_resolved eq_refl);
    try reflexivity.
  discriminate.
Defined.

Lemma watched_not_a_directory_witness :
  exists w' logs,
    watchAnime (Example.confirming (Some (Num 24))) "show" ("12", "") ["anime"]
      Example.blocked = (Throw ENOTDIR, w')
    /\ fs w' = fs Example.blocked
    /\ trace w'
       = [] ++ [UpdateAnime "https://kitsu.io/api/edge/library-entries/101"
                  {| data := {| id := "101"; type_ := "library-entries";
                                attributes := {| progress := Num 12 |} |} |};
                PrinterPrint logs; ConfigSave]
    /\ heap w' !! 2 = Some (recorded Example.show (Num 12) (Some (Num 24)))
    /\ disk w' = Some (omap (fun b => heap w' !! b) (cache w'), fileBindings w').
Proof.
  apply (watched_not_a_directory (Example.confirming (Some (Num 24)))
           "show" "12" "" ["anime"] Example.blocked 0 Example.show
           "[Group] Show Title - 12.mkv" "video-12" "a note"
           (Num 12) (Some (Num 24)));
    try reflexivity.
  - apply Forall_forall. repeat constructor; eexists; reflexivity.
  - right. reflexivity.
Defined.

(** ** Further properties of the parser *)

Lemma append_assoc (a b c : string) : (a +:+ b) +:+ c = a +:+ (b +:+ c).
Proof.
  induction a as [|x a IH]; [reflexivity |].
  change (String x ((a +:+ b) +:+ c) = String x (a +:+ (b +:+ c))). now f_equal.
Qed.

Lemma append_nil_r (a : string) : a +:+ "" = a.
Proof.
  induction a as [|x a IH]; [reflexivity |].
  change (String x (a +:+ "") = String x a). now f_equal.
Qed.

Lemma consumed_app (run s' : string) : consumed (run +:+ s') s' = run.
Proof.
  unfold consumed. rewrite length_append.
  replace (String.length run + String.length s' - String.length s')
    with (String.length run) by lia.
  apply substring_append_l.
Qed.

Lemma repeatMatcher_matches {R} (p : ascii -> bool) (k : string -> option R)
    (s : string) :
  forall lo hi x,
    repeatMatcher p lo hi s k = Some x ->
    exists run s',
      s = run +:+ s' /\ allChars p run = true /\ lo <= String.length run
      /\ (forall h, hi = Some h -> String.length run <= h) /\ k s' = Some x.
Proof.
  induction s as [|c s IH]; intros lo hi x; cbn [repeatMatcher].
  - destruct lo; [| discriminate]. intros H.
    exists "", "". repeat split; auto. intros h _. cbn. lia.
  - assert (Hstop : match lo with 0 => k (String c s) | S _ => None end = Some x ->
                    exists run s',
                      String c s = run +:+ s' /\ allChars p run = true
                      /\ lo <= String.length run
                      /\ (forall h, hi = Some h -> String.length run <= h)
                      /\ k s' = Some x).
    { destruct lo; [| discriminate]. intros H.
      exists "", (String c s). repeat split; auto. intros h _. cbn. lia. }
    destruct (p c) eqn:Pc; cbn [andb]; [| exact Hstop].
    destruct (isZero hi) eqn:Hz; cbn [negb]; [exact Hstop |].
    destruct (repeatMatcher p (Nat.pred lo) (Nat.pred <$> hi) s k) eqn:E;
      [| exact Hstop].
    intros [= <-]. apply IH in E as (run & s' & -> & Hall & Hlo & Hhi & Hk).
    exists (String c run), s'. cbn. rewrite Pc, Hall. repeat split; auto; [lia |].
    intros h ->. destruct h as [|h]; [discriminate |].
    specialize (Hhi h eq_refl). lia.
Qed.

(** The matcher only succeeds along a match. *)
Lemma matcher_matches {R} (r : regex) :
  forall (s : string) (caps : list (option string))
         (k : string -> list (option string) -> option R) (x : R),
    matcher r s caps k = Some x ->
    exists s' caps', matches r s caps s' caps' /\ k s' caps' = Some x.
Proof.
  induction r as [p | r1 IH1 r2 IH2 | r1 IH1 r2 IH2 | p lo hi | r IH | n r IH];
    intros s caps k x; cbn [matcher matches].
  - destruct s as [|c s]; [discriminate |].
    destruct (p c) eqn:Pc; [| discriminate]. eauto 8.
  - intros H. apply IH1 in H as (s1 & c1 & Hm1 & H).
    apply IH2 in H as (s2 & c2 & Hm2 & H). eauto 8.
  - destruct (matcher r1 s caps k) eqn:E.
    + intros [= <-]. apply IH1 in E as (s1 & c1 & Hm & H). eauto.
    + intros H. apply IH2 in H as (s1 & c1 & Hm & H). eauto.
  - intros H. apply repeatMatcher_matches in H as (run & s' & Hs & Ha & Hlo & Hhi & H).
    exists s', caps. split; [| exact H]. exists run. auto.
  - destruct (matcher r s caps k) eqn:E.
    + intros [= <-]. apply IH in E as (s1 & c1 & Hm & H). eauto.
    + eauto 6.
  - intros H. apply IH in H as (s1 & c1 & Hm & H). eauto 8.
Qed.

(** A match leaves a suffix of what it was given. *)
Lemma matches_suffix (r : regex) :
  forall s caps s' caps', matches r s caps s' caps' -> exists run, s = run +:+ s'.
Proof.
  induction r as [p | r1 IH1 r2 IH2 | r1 IH1 r2 IH2 | p lo hi | r IH | n r IH];
    intros s caps s' caps'; cbn [matches].
  - intros (c & -> & _). exists (String c ""). reflexivity.
  - intros (s1 & c1 & H1 & H2).
    apply IH1 in H1 as [run1 ->]. apply IH2 in H2 as [run2 ->].
    exists (run1 +:+ run2). now rewrite append_assoc.
  - intros [H | H]; eauto.
  - intros (run & -> & _). eauto.
  - intros [H | [-> _]]; [eauto | exists ""; reflexivity].
  - intros (c1 & H & _). eauto.
Qed.

Lemma tagRegEx_matches (s s1 : string) (c c1 : list (option string)) :
  matches tagRegEx s c s1 c1 ->
  exists tag,
    s = "[" +:+ tag +:+ "]" +:+ s1 /\ tag <> "" /\ allChars isTagChar tag = true
    /\ c1 = <[1 := Some tag]> c.
Proof.
  unfold tagRegEx. cbn [matches].
  intros (sA & cA & (c0 & -> & H0 & ->) & sB & cB & (cG & (run & -> & Hall & Hlen & _ & ->) & ->)
          & c2 & -> & H2 & ->).
  apply lit_true in H0 as ->. apply lit_true in H2 as ->.
  exists run. rewrite consumed_app. repeat split; auto.
  intros ->. cbn in Hlen. lia.
Qed.

Lemma between_2_4 (run : string) :
  2 <= String.length run -> (forall h, Some 4 = Some h -> String.length run <= h) ->
  2 <= String.length run <= 4.
Proof. intros H2 H4. split; [exact H2 | exact (H4 4 eq_refl)]. Qed.

Lemma length_2 (dd : string) :
  2 <= String.length dd -> (forall h, Some 2 = Some h -> String.length dd <= h) ->
  String.length dd = 2.
Proof. intros H2 H4. specialize (H4 2 eq_refl). lia. Qed.

Lemma episodeRegEx_matches (s s' : string) (c c' : list (option string)) :
  matches (Group 4 episodeRegEx) s c s' c' ->
  exists token g5 g6,
    s = token +:+ s'
    /\ (plainToken token g5 g6 \/ seasonToken token g5 g6 \/ versionedToken token g5 g6)
    /\ c' = <[4 := Some token]>
              (match g5, g6 with
               | Some dd, Some run => <[6 := Some run]> (<[5 := Some dd]> c)
               | _, _ => c
               end).
Proof.
  unfold episodeRegEx. cbn [matches]. intros (cG & [H | [H | H]] & ->).
  - destruct H as (run & -> & Hall & Hlo & Hhi & ->).
    exists run, None, None. rewrite consumed_app.
    split; [reflexivity |]. split; [| reflexivity].
    left. unfold plainToken. repeat split; auto.
  - destruct H as (sA & cA & (cs & -> & Hs & ->)
                   & sB & cB & (c5 & (dd & -> & Hdd & Hdlo & Hdhi & ->) & ->)
                   & sC & cC & (ce & -> & He & ->)
                   & c6 & (run & -> & Hrun & Hrlo & Hrhi & ->) & ->).
    exists (String cs (dd +:+ String ce run)), (Some dd), (Some run).
    rewrite !consumed_app.
    assert (E : String cs (dd +:+ String ce (run +:+ s'))
                = String cs (dd +:+ String ce run) +:+ s').
    { change (String cs (dd +:+ String ce (run +:+ s'))
              = String cs ((dd +:+ String ce run) +:+ s')).
      f_equal. rewrite append_assoc. reflexivity. }
    rewrite E, consumed_app.
    split; [reflexivity |]. split; [| reflexivity].
    right; left. exists cs, dd, ce, run. repeat split; auto.
    now apply length_2.
  - destruct H as (sA & cA & (run & -> & Hrun & Hrlo & Hrhi & ->)
                   & sB & cB & (cv & -> & Hv & ->) & dg & -> & Hdg & ->).
    exists (run +:+ String cv (String dg "")), None, None.
    assert (E : run +:+ String cv (String dg s')
                = (run +:+ String cv (String dg "")) +:+ s').
    { now rewrite append_assoc. }
    rewrite E, consumed_app.
    split; [reflexivity |]. split; [| reflexivity].
    right; right. exists run, cv, dg. repeat split; auto.
Qed.

(** What [exec] returns for a name the pattern matches: the name opens
    with the bracketed tag, a white space and the title, and the array
    holds the tag, the title and the episode token in one of its three
    forms. *)
Lemma exec_fansubRegEx_shape (name : string) (parts : list (option string)) :
  exec fansubRegEx 7 name = Some parts ->
  exists whole tag c ttl rest g3 token g5 g6 sep,
    name = "[" +:+ tag +:+ "]" +:+ String c (ttl +:+ rest)
    /\ isWhiteSpace c = true
    /\ tag <> "" /\ allChars isTagChar tag = true
    /\ ttl <> "" /\ allChars isNotLineTerminator ttl = true
    /\ (plainToken token g5 g6 \/ seasonToken token g5 g6 \/ versionedToken token g5 g6)
    /\ parts = [Some whole; Some tag; Some ttl; g3; Some token; g5; g6; Some sep].
Proof.
  unfold exec. intros H. apply matcher_matches in H as (s' & caps' & Hm & H).
  injection H as <-. unfold fansubRegEx in Hm. cbn [matches] in Hm.
  destruct Hm as (s1 & c1 & Htag & s2 & c2 & (c & -> & Hws & ->)
                  & s3 & c3 & (cT & (ttl & -> & Httl & Hlen & _ & ->) & ->)
                  & s4 & c4 & Hopt
                  & s5 & c5 & (cw & -> & Hws2 & ->)
                  & s6 & c6 & Hep & c7 & Hsep & ->).
  apply tagRegEx_matches in Htag as (tag & -> & Htne & Htag & ->).
  apply episodeRegEx_matches in Hep as (token & g5 & g6 & -> & Hshape & ->).
  rewrite consumed_app in Hopt.
  assert (Httl_ne : ttl <> "") by (intros ->; cbn in Hlen; lia).
  assert (Hg3 : exists g3, c4 = <[3 := g3]> (<[2 := Some ttl]> (<[1 := Some tag]>
                                  (replicate 8 None)))).
  { destruct Hopt as [(c3' & Hin & ->) | [_ ->]].
    - destruct Hin as (sA & cA & (ch & _ & _ & ->) & sB & cB & (ch' & _ & _ & ->)
                       & run & _ & _ & _ & _ & ->).
      eexists. reflexivity.
    - exists None. reflexivity. }
  destruct Hg3 as [g3 ->].
  assert (Hc7 : c7 = <[4 := Some token]>
                       (match g5, g6 with
                        | Some dd, Some run =>
                            <[6 := Some run]>
                              (<[5 := Some dd]>
                                 (<[3 := g3]> (<[2 := Some ttl]> (<[1 := Some tag]>
                                    (replicate 8 None)))))
                        | _, _ =>
                            <[3 := g3]> (<[2 := Some ttl]> (<[1 := Some tag]>
                              (replicate 8 None)))
                        end)).
  { destruct Hsep as [(cs & _ & _ & ->) | (cs & _ & _ & ->)]; reflexivity. }
  subst c7.
  eexists _, tag, c, ttl, s3, g3, token, g5, g6, _.
  repeat split; try assumption.
  destruct Hshape as [(-> & -> & _) | [(cs & dd & ce & run & _ & -> & -> & _)
                                       | (run & cv & dg & _ & -> & -> & _)]];
    reflexivity.
Qed.

Lemma parse_inr_shape (name : string) (d : FansubFilenameData) :
  parseFansubFilename name = Some (inr d) ->
  exists whole tag c ttl rest g3 token g5 g6 sep,
    name = "[" +:+ tag +:+ "]" +:+ String c (ttl +:+ rest)
    /\ isWhiteSpace c = true
    /\ tag <> "" /\ allChars isTagChar tag = true
    /\ ttl <> "" /\ allChars isNotLineTerminator ttl = true
    /\ (plainToken token g5 g6 \/ seasonToken token g5 g6 \/ versionedToken token g5 g6)
    /\ serializeFansubFilename
         [Some whole; Some tag; Some ttl; g3; Some token; g5; g6; Some sep] = Some d.
Proof.
  unfold parseFansubFilename.
  destruct (exec fansubRegEx 7 name) as [parts|] eqn:E; [| discriminate].
  apply exec_fansubRegEx_shape in E
    as (whole & tag & c & ttl & rest & g3 & token & g5 & g6 & sep
        & Hn & Hc & Ht & Hta & Htt & Htta & Hshape & ->).
  intros H. exists whole, tag, c, ttl, rest, g3, token, g5, g6, sep.
  repeat split; try assumption.
  destruct (serializeFansubFilename _) as [d'|]; [| discriminate].
  cbn in H. congruence.
Qed.

Lemma serialize_fansub_title (whole tag ttl token sep : string)
    (g3 g5 g6 : option string) (d : FansubFilenameData) :
  serializeFansubFilename
    [Some whole; Some tag; Some ttl; g3; Some token; g5; g6; Some sep] = Some d ->
  fansub d = tag /\ title d = trimHyphen ttl.
Proof.
  unfold serializeFansubFilename, part. cbn.
  destruct (truthyPart g5).
  - destruct g6; cbn; [| discriminate]. intros [= <-]. auto.
  - intros [= <-]. auto.
Qed.

Lemma prefix_app (t b : string) : String.prefix t (t +:+ b) = true.
Proof.
  induction t as [|x t IH]; [now destruct b |].
  change (String.prefix (String x t) (String x (t +:+ b)) = true).
  simpl. destruct (ascii_dec x x); [exact IH | congruence].
Qed.

Lemma includes_prefix (s t : string) :
  String.prefix t s = true -> includes s t = true.
Proof. intros H. destruct s; cbn [includes]; now rewrite H. Qed.

Lemma includes_app (a t b : string) : includes (a +:+ t +:+ b) t = true.
Proof.
  induction a as [|x a IH].
  - apply includes_prefix. exact (prefix_app t b).
  - change (String x a +:+ t +:+ b) with (String x (a +:+ t +:+ b)).
    cbn [includes]. rewrite IH. apply orb_true_r.
Qed.

Lemma toLowerCase_app (a b : string) :
  toLowerCase (a +:+ b) = toLowerCase a +:+ toLowerCase b.
Proof.
  induction a as [|x a IH]; [reflexivity |].
  change (String (toLowerChar x) (toLowerCase (a +:+ b))
          = String (toLowerChar x) (toLowerCase a +:+ toLowerCase b)).
  now f_equal.
Qed.

Lemma substring_prefix (t : string) :
  forall m, exists post, t = String.substring 0 m t +:+ post.
Proof.
  induction t as [|x t IH]; intros [|m].
  - exists "". reflexivity.
  - exists "". reflexivity.
  - exists (String x t). reflexivity.
  - destruct (IH m) as [post Hp]. exists post.
    change (String x t = String x (String.substring 0 m t +:+ post)). now f_equal.
Qed.

Lemma trimHyphen_prefix (t : string) : exists post, t = trimHyphen t +:+ post.
Proof.
  unfold trimHyphen.
  assert (Hsame : exists post, t = t +:+ post) by (exists ""; now rewrite append_nil_r).
  destruct (lastChar t) as [c|]; [| exact Hsame].
  destruct (Ascii.eqb c "-"); [| exact Hsame].
  unfold substring.
  replace (Z.to_nat
             (Z.min (Z.max 0 (Z.min 0 (Z.of_nat (String.length t))))
                (Z.max 0 (Z.min (Z.of_nat (String.length t) - 2)
                            (Z.of_nat (String.length t)))))) with 0 by lia.
  apply substring_prefix.
Qed.

(** X8: what the parser returns is read off the name: an accepted name is
    the release group in brackets, one white space, and a text that starts
    with the captured title; the title returned is the captured one, cut by
    its last two characters when it ends in a hyphen.  Every name the
    parser accepts passes the tag test of the candidate filter. *)
Theorem parsed_fields_in_name (name : string) (d : FansubFilenameData) :
  parseFansubFilename name = Some (inr d) ->
  startsWithTag name
  /\ exists c ttl rest,
       name = "[" +:+ fansub d +:+ "]" +:+ String c (ttl +:+ rest)
       /\ isWhiteSpace c = true
       /\ fansub d <> "" /\ allChars isTagChar (fansub d) = true
       /\ ttl <> "" /\ allChars isNotLineTerminator ttl = true
       /\ title d = trimHyphen ttl.
Proof.
  intros H. apply parse_inr_shape in H
    as (whole & tag & c & ttl & rest & g3 & token & g5 & g6 & sep
        & Hn & Hc & Ht & Hta & Htt & Htta & _ & Hser).
  apply serialize_fansub_title in Hser as [Hf Hti]. rewrite Hf.
  split.
  - exists tag, (String c (ttl +:+ rest)). auto.
  - exists c, ttl, rest. auto 10.
Qed.

Lemma parsed_fields_in_name_witness :
  startsWithTag "[Group] Show Title - 07.mkv"
  /\ exists c ttl rest,
       "[Group] Show Title - 07.mkv" = "[" +:+ "Group" +:+ "]" +:+ String c (ttl +:+ rest)
       /\ isWhiteSpace c = true
       /\ "Group" <> "" /\ allChars isTagChar "Group" = true
       /\ ttl <> "" /\ allChars isNotLineTerminator ttl = true
       /\ "Show Title" = trimHyphen ttl.
Proof.
  apply (parsed_fields_in_name "[Group] Show Title - 07.mkv"
           {| fansub := "Group"; title := "Show Title"; epNum := Num 7;
              paddedEpNum := "07"; season := None |} eq_refl).
Defined.

(** X9: the binding a synchronisation derives from a file selects that
    file again: the lower-cased parsed title occurs in the lower-cased name,
    so with it as search term the candidate filter keeps the file whenever
    the name holds the episode token. *)
Theorem parsed_title_selects_file (name : string) (d : FansubFilenameData) :
  parseFansubFilename name = Some (inr d) ->
  includes (toLowerCase name) (toLowerCase (title d)) = true
  /\ forall epNum,
       isFansubFilename (toLowerCase (title d)) epNum name
       = includes name (epToken epNum).
Proof.
  intros H. destruct (parsed_fields_in_name name d H)
    as [Htag (c & ttl & rest & Hn & _ & _ & _ & _ & _ & Hti)].
  destruct (trimHyphen_prefix ttl) as [post Hpost]. rewrite <- Hti in Hpost.
  assert (Hin : includes (toLowerCase name) (toLowerCase (title d)) = true).
  { assert (E : name = ("[" +:+ fansub d +:+ "]" +:+ String c "")
                       +:+ title d +:+ (post +:+ rest)).
    { rewrite Hn at 1. rewrite Hpost at 1.
      change ("[" +:+ fansub d +:+ "]" +:+ String c ((title d +:+ post) +:+ rest))
        with (String "[" (fansub d +:+ String "]" (String c ((title d +:+ post) +:+ rest)))).
      change (("[" +:+ fansub d +:+ "]" +:+ String c "") +:+ title d +:+ post +:+ rest)
        with (String "[" ((fansub d +:+ String "]" (String c ""))
                          +:+ title d +:+ post +:+ rest)).
      f_equal. rewrite !append_assoc. reflexivity. }
    rewrite E at 1. rewrite !toLowerCase_app. apply includes_app. }
  split; [exact Hin |].
  intros epNum. unfold isFansubFilename. rewrite Hin.
  rewrite bool_decide_eq_true_2 by (now apply exec_tagRegEx). reflexivity.
Qed.

Lemma parsed_title_selects_file_witness :
  includes (toLowerCase "[Group] Show Title - 07.mkv") (toLowerCase "Show Title") = true
  /\ forall epNum,
       isFansubFilename (toLowerCase "Show Title") epNum "[Group] Show Title - 07.mkv"
       = includes "[Group] Show Title - 07.mkv" (epToken epNum).
Proof.
  apply (parsed_title_selects_file "[Group] Show Title - 07.mkv"
           {| fansub := "Group"; title := "Show Title"; epNum := Num 7;
              paddedEpNum := "07"; season := None |} eq_refl).
Defined.

(** *** The episode number *)

Lemma isDigit_value (c : ascii) :
  isDigit c = true -> (0 <= Z.of_nat (code c - 48) <= 9)%Z.
Proof.
  unfold isDigit, inRange. rewrite andb_true_iff, !Nat.leb_le. lia.
Qed.

Lemma digitsValue_digits (s : string) :
  allChars isDigit s = true ->
  forall acc, (0 <= acc)%Z ->
  exists z, digitsValue acc s = Some z
            /\ (acc * 10 ^ Z.of_nat (String.length s) <= z
                < (acc + 1) * 10 ^ Z.of_nat (String.length s))%Z.
Proof.
  induction s as [|c s IH]; intros Hall acc Hacc.
  - exists acc. cbn. split; [reflexivity | lia].
  - cbn [allChars] in Hall. apply andb_prop in Hall as [Hc Hall].
    cbn [digitsValue]. rewrite Hc.
    pose proof (isDigit_value c Hc) as Hv.
    destruct (IH Hall (10 * acc + Z.of_nat (code c - 48))%Z ltac:(lia))
      as (z & Hz & Hlo & Hhi).
    exists z. split; [exact Hz |].
    cbn [String.length]. rewrite Nat2Z.inj_succ, Z.pow_succ_r by lia.
    assert (0 < 10 ^ Z.of_nat (String.length s))%Z by (apply Z.pow_pos_nonneg; lia).
    nia.
Qed.

Lemma digitsValue_nondigit (run rest : string) (x : ascii) :
  allChars isDigit run = true -> isDigit x = false ->
  forall acc, digitsValue acc (run +:+ String x rest) = None.
Proof.
  induction run as [|c run IH]; intros Hall Hx acc.
  - change (digitsValue acc (String x rest) = None).
    cbn [digitsValue]. now rewrite Hx.
  - cbn [allChars] in Hall. apply andb_prop in Hall as [Hc Hall].
    change (digitsValue acc (String c (run +:+ String x rest)) = None).
    cbn [digitsValue]. rewrite Hc. now apply IH.
Qed.

Lemma litI_v (c : ascii) : litI "v" c = true -> c = "v"%char \/ c = "V"%char.
Proof.
  destruct c as [[] [] [] [] [] [] [] []]; vm_compute; intros H;
    try discriminate; auto.
Qed.

Lemma isDigit_not_v (c : ascii) : isDigit c = true -> Ascii.eqb c "v" = false.
Proof.
  intros H. destruct (Ascii.eqb_spec c "v") as [-> |]; [| reflexivity].
  vm_compute in H. discriminate.
Qed.

Lemma allChars_impl (p q : ascii -> bool) (s : string) :
  (forall c, p c = true -> q c = true) -> allChars p s = true -> allChars q s = true.
Proof.
  intros Hpq. induction s as [|c s IH]; [reflexivity |].
  cbn. rewrite !andb_true_iff. intros [Hc Hs]. auto.
Qed.

Lemma allChars_app (p : ascii -> bool) (a b : string) :
  allChars p (a +:+ b) = allChars p a && allChars p b.
Proof.
  induction a as [|c a IH]; [reflexivity |].
  change (p c && allChars p (a +:+ b) = p c && allChars p a && allChars p b).
  rewrite IH. apply andb_assoc.
Qed.

Lemma includes_no_char (x : ascii) (s : string) :
  allChars (fun c => negb (Ascii.eqb c x)) s = true ->
  includes s (String x "") = false.
Proof.
  induction s as [|c s IH]; [reflexivity |].
  cbn [allChars]. rewrite andb_true_iff, negb_true_iff. intros [Hc Hs].
  cbn [includes String.prefix]. rewrite (IH Hs).
  destruct (ascii_dec x c) as [-> |]; [| reflexivity].
  rewrite Ascii.eqb_refl in Hc. discriminate.
Qed.

Lemma splitHead_app (x : ascii) (run rest : string) :
  allChars (fun c => negb (Ascii.eqb c x)) run = true ->
  splitHead x (run +:+ String x rest) = run.
Proof.
  induction run as [|c run IH].
  - intros _. change (splitHead x (String x rest) = "").
    cbn [splitHead]. now rewrite Ascii.eqb_refl.
  - cbn [allChars]. rewrite andb_true_iff, negb_true_iff. intros [Hc Hs].
    change (splitHead x (String c (run +:+ String x rest)) = String c run).
    cbn [splitHead]. rewrite Hc. f_equal. now apply IH.
Qed.

Lemma digits_no_v (run : string) :
  allChars isDigit run = true ->
  allChars (fun c => negb (Ascii.eqb c "v")) run = true.
Proof.
  apply allChars_impl. intros c Hc. now rewrite (isDigit_not_v c Hc).
Qed.

(** Where the episode token of a matched name stands: after a white space,
    and before the white space or the dot that ends the match. *)
Lemma exec_fansubRegEx_token (name : string) (parts : list (option string)) :
  exec fansubRegEx 7 name = Some parts ->
  exists pre cw token post g5 g6,
    name = pre +:+ String cw (token +:+ post)
    /\ isWhiteSpace cw = true
    /\ part 4 parts = Some token /\ part 5 parts = g5 /\ part 6 parts = g6
    /\ (plainToken token g5 g6 \/ seasonToken token g5 g6 \/ versionedToken token g5 g6).
Proof.
  unfold exec. intros H. apply matcher_matches in H as (s' & caps' & Hm & H).
  injection H as <-. unfold fansubRegEx in Hm. cbn [matches] in Hm.
  destruct Hm as (s1 & c1 & Htag & s2 & c2 & (c & -> & Hws & ->)
                  & s3 & c3 & (cT & (ttl & -> & Httl & Hlen & _ & ->) & ->)
                  & s4 & c4 & Hopt
                  & s5 & c5 & (cw & -> & Hws2 & ->)
                  & s6 & c6 & Hep & c7 & Hsep & ->).
  apply tagRegEx_matches in Htag as (tag & -> & Htne & Htag & ->).
  apply episodeRegEx_matches in Hep as (token & g5 & g6 & -> & Hshape & ->).
  assert (Hsuf : exists run, s3 = run +:+ String cw (token +:+ s6)).
  { exact (matches_suffix
             (Opt (Group 3 (Atom isWhiteSpace ⋅ Atom (litI "S") ⋅ Rep isDigit 1 (Some 2))))%re
             s3 _ _ _ Hopt). }
  destruct Hsuf as [run Hrun].
  rewrite consumed_app in Hopt.
  assert (Hg3 : exists g3, c4 = <[3 := g3]> (<[2 := Some ttl]> (<[1 := Some tag]>
                                  (replicate 8 None)))).
  { destruct Hopt as [(c3' & Hin & ->) | [_ ->]].
    - destruct Hin as (sA & cA & (ch & _ & _ & ->) & sB & cB & (ch' & _ & _ & ->)
                       & run' & _ & _ & _ & _ & ->).
      eexists. reflexivity.
    - exists None. reflexivity. }
  destruct Hg3 as [g3 ->].
  assert (Hc7 : c7 = <[4 := Some token]>
                       (match g5, g6 with
                        | Some dd, Some run =>
                            <[6 := Some run]>
                              (<[5 := Some dd]>
                                 (<[3 := g3]> (<[2 := Some ttl]> (<[1 := Some tag]>
                                    (replicate 8 None)))))
                        | _, _ =>
                            <[3 := g3]> (<[2 := Some ttl]> (<[1 := Some tag]>
                              (replicate 8 None)))
                        end)).
  { destruct Hsep as [(cs & _ & _ & ->) | (cs & _ & _ & ->)]; reflexivity. }
  subst c7.
  exists ("[" +:+ tag +:+ "]" +:+ String c (ttl +:+ run)), cw, token, s6, g5, g6.
  split.
  { rewrite Hrun.
    change ("[" +:+ tag +:+ "]" +:+ String c (ttl +:+ run +:+ String cw (token +:+ s6)))
      with (String "[" (tag +:+ String "]"
              (String c (ttl +:+ run +:+ String cw (token +:+ s6))))).
    change (("[" +:+ tag +:+ "]" +:+ String c (ttl +:+ run))
            +:+ String cw (token +:+ s6))
      with (String "[" ((tag +:+ String "]" (String c (ttl +:+ run)))
                        +:+ String cw (token +:+ s6))).
    f_equal. rewrite append_assoc.
    change (String "]" (String c (ttl +:+ run)) +:+ String cw (token +:+ s6))
      with (String "]" (String c ((ttl +:+ run) +:+ String cw (token +:+ s6)))).
    now rewrite append_assoc. }
  split; [exact Hws2 |].
  destruct Hshape as [(-> & -> & Hp) | [(cs & dd & ce & run' & Ht & -> & -> & Hs)
                                       | (run' & cv & dg & Ht & -> & -> & Hv)]].
  - repeat split; try reflexivity. left. repeat split; tauto.
  - repeat split; try reflexivity. right; left. exists cs, dd, ce, run'. tauto.
  - repeat split; try reflexivity. right; right. exists run', cv, dg. tauto.
Qed.

(** X10: the episode number the parser returns is read off the episode
    token the pattern captured, which stands in the name after a white
    space.  For a plain token the padded episode number is the token, a run
    of 2 to 4 digits, and the episode number is its value.  For [SxxEyy]
    the padded episode number is [yy], the episode number its value and
    the season [xx].  For a versioned token [NNvM] the episode number is
    [NaN], [Number] being applied to the whole token; the padded episode
    number is the digits before a lower-case [v], and the whole token when
    the [V] is upper-case. *)
Theorem parsed_episode_number (name : string) (parts : list (option string)) :
  exec fansubRegEx 7 name = Some parts ->
  exists d token pre cw post,
    parseFansubFilename name = Some (inr d)
    /\ part 4 parts = Some token
    /\ name = pre +:+ String cw (token +:+ post)
    /\ isWhiteSpace cw = true
    /\ ((allChars isDigit token = true /\ 2 <= String.length token <= 4
         /\ paddedEpNum d = token
         /\ exists z, digitsValue 0 token = Some z /\ (0 <= z < 10000)%Z
                      /\ epNum d = Num z)
        \/ (exists cs dd ce run,
              token = String cs (dd +:+ String ce run)
              /\ litI "S" cs = true /\ litI "E" ce = true
              /\ allChars isDigit dd = true /\ String.length dd = 2
              /\ allChars isDigit run = true /\ 2 <= String.length run <= 4
              /\ paddedEpNum d = run /\ season d = Some dd
              /\ exists z, digitsValue 0 run = Some z /\ (0 <= z < 10000)%Z
                           /\ epNum d = Num z)
        \/ (exists run cv dg,
              token = run +:+ String cv (String dg "")
              /\ allChars isDigit run = true /\ 2 <= String.length run <= 4
              /\ isDigit dg = true
              /\ epNum d = NaN
              /\ ((cv = "v"%char /\ paddedEpNum d = run)
                  \/ (cv = "V"%char /\ paddedEpNum d = token)))).
Proof.
  intros Hexec.
  destruct (exec_fansubRegEx_token name parts Hexec)
    as (pre & cw & token & post & g5 & g6 & Hname & Hcw & H4 & H5 & H6 & Hshape).
  destruct (exec_fansubRegEx_shape name parts Hexec)
    as (whole & tag & c & ttl & rest & g3 & token' & g5' & g6' & sep
        & _ & _ & _ & _ & _ & _ & _ & Hparts).
  subst parts. cbn in H4, H5, H6. injection H4 as ->. subst g5' g6'.
  unfold parseFansubFilename. rewrite Hexec.
  unfold serializeFansubFilename, part. cbn.
  destruct Hshape as [(-> & -> & Hdig & Hlen)
                     | [(cs & dd & ce & run & -> & -> & -> & Hs & He & Hdd & Hdl & Hrun & Hlen)
                       | (run & cv & dg & -> & -> & -> & Hrun & Hlen & Hv & Hdg)]].
  - cbn. rewrite (includes_no_char "v" token (digits_no_v token Hdig)).
    eexists _, token, pre, cw, post. split; [reflexivity |].
    split; [reflexivity |]. split; [exact Hname |]. split; [exact Hcw |].
    left. cbn [paddedEpNum epNum].
    destruct (digitsValue_digits token Hdig 0%Z ltac:(lia)) as (z & Hz & Hlo & Hhi).
    repeat split; try assumption; try lia.
    exists z. split; [exact Hz |]. split.
    + assert (10 ^ Z.of_nat (String.length token) <= 10 ^ 4)%Z
        by (apply Z.pow_le_mono_r; lia).
      lia.
    + unfold Number. now rewrite Hz.
  - assert (Ht : truthyStr dd = true) by (destruct dd; [discriminate | reflexivity]).
    cbn. rewrite Ht. cbn.
    eexists _, _, pre, cw, post. split; [reflexivity |].
    split; [reflexivity |]. split; [exact Hname |]. split; [exact Hcw |].
    right; left. exists cs, dd, ce, run. cbn [paddedEpNum epNum season].
    destruct (digitsValue_digits run Hrun 0%Z ltac:(lia)) as (z & Hz & Hlo & Hhi).
    repeat split; try assumption; try lia.
    exists z. split; [exact Hz |]. split.
    + assert (10 ^ Z.of_nat (String.length run) <= 10 ^ 4)%Z
        by (apply Z.pow_le_mono_r; lia).
      lia.
    + unfold Number. now rewrite Hz.
  - cbn.
    assert (Hnan : Number (run +:+ String cv (String dg "")) = NaN).
    { unfold Number. rewrite digitsValue_nondigit; [reflexivity | exact Hrun |].
      apply litI_v in Hv as [-> | ->]; reflexivity. }
    pose proof (digits_no_v run Hrun) as Hnv.
    apply litI_v in Hv as [-> | ->].
    + assert (Hinc : includes (run +:+ String "v" (String dg "")) "v" = true).
      { exact (includes_app run "v" (String dg "")). }
      rewrite Hinc, (splitHead_app "v" run (String dg "") Hnv).
      eexists _, _, pre, cw, post. split; [reflexivity |].
      split; [reflexivity |]. split; [exact Hname |]. split; [exact Hcw |].
      right; right. exists run, "v"%char, dg. cbn [paddedEpNum epNum].
      repeat split; try assumption; try lia. left. split; reflexivity.
    + assert (Hinc : includes (run +:+ String "V" (String dg "")) "v" = false).
      { apply includes_no_char. rewrite allChars_app, Hnv. cbn.
        now rewrite (isDigit_not_v dg Hdg). }
      rewrite Hinc.
      eexists _, _, pre, cw, post. split; [reflexivity |].
      split; [reflexivity |]. split; [exact Hname |]. split; [exact Hcw |].
      right; right. exists run, "V"%char, dg. cbn [paddedEpNum epNum].
      repeat split; try assumption; try lia. right. split; reflexivity.
Qed.

Lemma parsed_episode_number_witness :
  exists d token pre cw post,
    parseFansubFilename "[Group] Show Title - 07v2 (1080p).mkv" = Some (inr d)
    /\ Some token = Some "07v2"
    /\ "[Group] Show Title - 07v2 (1080p).mkv" = pre +:+ String cw (token +:+ post)
    /\ isWhiteSpace cw = true
    /\ epNum d = NaN /\ paddedEpNum d = "07".
Proof.
  destruct (parsed_episode_number "[Group] Show Title - 07v2 (1080p).mkv"
              [Some "[Group] Show Title - 07v2 "; Some "Group"; Some "Show Title -";
               None; Some "07v2"; None; None; Some " "] eq_refl)
    as (d & token & pre & cw & post & Hd & Ht & Hn & Hc & _).
  exists d, token, pre, cw, post.
  split; [exact Hd |]. split; [now rewrite <- Ht |]. split; [exact Hn |].
  split; [exact Hc |].
  vm_compute in Hd. injection Hd as <-. split; reflexivity.
Defined.

(** ** Further properties of utils.ts *)

(** X11: [truncateStr] leaves a string of at most [length] characters as it
    is, and cuts a longer one to its first [length] characters followed by
    an ellipsis, so that the result is three characters longer than the
    limit. *)
Theorem truncateStr_cases (str : string) (length : nat) :
  (String.length str <= length -> truncateStr str length = str)
  /\ (length < String.length str ->
      truncateStr str length = String.substring 0 length str +:+ "..."
      /\ String.length (truncateStr str length) = length + 3).
Proof.
  unfold truncateStr. rewrite substring_from_start, substring_length. split.
  - intros H. destruct (Nat.ltb_spec (Nat.min (Nat.min length (String.length str))
                                        (String.length str)) (String.length str));
      [lia | reflexivity].
  - intros H. destruct (Nat.ltb_spec (Nat.min (Nat.min length (String.length str))
                                        (String.length str)) (String.length str));
      [| lia].
    rewrite Nat.min_l by lia. split; [reflexivity |].
    rewrite length_append, substring_length. cbn. lia.
Qed.

Lemma truncateStr_cases_witness :
  truncateStr "Show Title" 4 = String.substring 0 4 "Show Title" +:+ "..."
  /\ String.length (truncateStr "Show Title" 4) = 4 + 3.
Proof.
  apply (proj2 (truncateStr_cases "Show Title" 4)). vm_compute. lia.
Defined.

Lemma spaces_length (n : nat) : String.length (spaces n) = n.
Proof. induction n as [|n IH]; cbn; [reflexivity | now rewrite IH]. Qed.

Lemma spaces_all (n : nat) : allChars (fun c => Ascii.eqb c " ") (spaces n) = true.
Proof. induction n as [|n IH]; [reflexivity | exact IH]. Qed.

(** X12: [fitStringEnd] throws exactly when the string is longer than the
    length asked for; otherwise it returns the string followed by spaces
    only, and the result has exactly that length. *)
Theorem fitStringEnd_pads (str : string) (m : Z) :
  ((Z.of_nat (String.length str) <= m)%Z ->
   exists pad,
     fitStringEnd str (Num m) = Returned (str +:+ pad)
     /\ allChars (fun c => Ascii.eqb c " ") pad = true
     /\ Z.of_nat (String.length (str +:+ pad)) = m)
  /\ ((m < Z.of_nat (String.length str))%Z ->
      exists message, fitStringEnd str (Num m) = Raised message).
Proof.
  unfold fitStringEnd. split; intros H.
  - destruct (Z.ltb_spec m (Z.of_nat (String.length str))); [lia |].
    eexists. split; [reflexivity |]. split; [apply spaces_all |].
    rewrite length_append, spaces_length. lia.
  - destruct (Z.ltb_spec m (Z.of_nat (String.length str))); [eauto | lia].
Qed.

Lemma fitStringEnd_pads_witness :
  exists pad,
    fitStringEnd "info" (Num 7) = Returned ("info" +:+ pad)
    /\ allChars (fun c => Ascii.eqb c " ") pad = true
    /\ Z.of_nat (String.length ("info" +:+ pad)) = 7%Z.
Proof.
  apply (proj1 (fitStringEnd_pads "info" 7)). vm_compute. discriminate.
Defined.

(** *** The episode token of a number *)

Lemma string_of_uint_length_1 (d : Decimal.uint) :
  String.length (NilEmpty.string_of_uint d) = 1 ->
  (0 <= Z.of_uint d <= 9)%Z.
Proof.
  destruct d as [|d|d|d|d|d|d|d|d|d|d]; cbn [NilEmpty.string_of_uint String.length];
    intros H; try discriminate H;
    (destruct d; cbn in H; try discriminate H; vm_compute; split; discriminate).
Qed.

Lemma numToString_length_1 (z : Z) :
  (0 <= z)%Z -> String.length (numToString (Num z)) = 1 -> (z < 10)%Z.
Proof.
  intros Hz H. unfold numToString in H.
  pose proof (DecimalZ.of_to z) as Hround.
  destruct (Z.to_int z) as [d|d] eqn:E.
  - cbn [NilEmpty.string_of_int] in H. apply string_of_uint_length_1 in H.
    cbn [Z.of_int] in Hround. lia.
  - destruct z; cbn in E; discriminate E || lia.
Qed.

Lemma small_numbers (z : Z) :
  (0 <= z < 10)%Z ->
  z = 0%Z \/ z = 1%Z \/ z = 2%Z \/ z = 3%Z \/ z = 4%Z \/ z = 5%Z \/ z = 6%Z
  \/ z = 7%Z \/ z = 8%Z \/ z = 9%Z.
Proof. lia. Qed.

(** X13: on the decimal rendering of a number that is not negative, the
    episode token of the candidate filter pads exactly the numbers below
    10 with one zero, and is the token the earlier revision built with
    [toEpisodeNumberStr].  A number that is given already padded is not
    padded again, and an empty episode string gives the bare separator. *)
Theorem epToken_of_number :
  (forall z : Z,
     (0 <= z)%Z ->
     epToken (numToString (Num z))
     = (if (z <? 10)%Z then "- 0" +:+ numToString (Num z)
        else "- " +:+ numToString (Num z))
     /\ epToken (numToString (Num z)) = "- " +:+ toEpisodeNumberStr (Num z))
  /\ epToken "07" = "- 07"
  /\ epToken "" = "- ".
Proof.
  split; [| split; reflexivity].
  intros z Hz. unfold toEpisodeNumberStr.
  destruct (Z.ltb_spec z 10) as [Hlt | Hge].
  - destruct (small_numbers z ltac:(lia))
      as [-> | [-> | [-> | [-> | [-> | [-> | [-> | [-> | [-> | ->]]]]]]]]];
      split; reflexivity.
  - assert (Hl : (String.length (numToString (Num z)) =? 1) = false).
    { apply Nat.eqb_neq. intros H. apply numToString_length_1 in H; lia. }
    unfold epToken. rewrite Hl. split; reflexivity.
Qed.

Lemma epToken_of_number_witness :
  epToken (numToString (Num 112))
  = (if (112 <? 10)%Z then "- 0" +:+ numToString (Num 112)
     else "- " +:+ numToString (Num 112))
  /\ epToken (numToString (Num 112)) = "- " +:+ toEpisodeNumberStr (Num 112).
Proof.
  apply (proj1 epToken_of_number 112%Z). lia.
Defined.

(** *** The hyphen at the end of a title *)

Lemma trimHyphen_two (t : string) (c : ascii) : trimHyphen (t +:+ String c "-") = t.
Proof.
  unfold trimHyphen. rewrite lastChar_append. simpl Ascii.eqb. cbv iota.
  unfold substring. rewrite length_append. simpl String.length.
  replace (Z.of_nat (String.length t + 2) - 2)%Z with (Z.of_nat (String.length t)) by lia.
  rewrite (Z.min_l 0) by lia.
  rewrite (Z.min_l (Z.of_nat (String.length t))) by lia.
  rewrite !Z.max_r by lia.
  rewrite Z.min_l by lia.
  rewrite Z.sub_0_r, Nat2Z.id. simpl Z.to_nat.
  apply substring_append_l.
Qed.

Lemma trimHyphen_other (t : string) : lastChar t <> Some "-"%char -> trimHyphen t = t.
Proof.
  unfold trimHyphen. destruct (lastChar t) as [c|]; [| reflexivity].
  destruct (Ascii.eqb_spec c "-") as [-> |]; [congruence | reflexivity].
Qed.

Lemma parse_title (name : string) (parts : list (option string)) (ttl : string) :
  exec fansubRegEx 7 name = Some parts ->
  part 2 parts = Some ttl ->
  exists d, parseFansubFilename name = Some (inr d) /\ title d = trimHyphen ttl.
Proof.
  intros Hexec Ht. unfold parseFansubFilename. rewrite Hexec.
  destruct (serializeFansubFilename_total name parts Hexec) as [d Hd].
  rewrite Hd. exists d. split; [reflexivity |].
  unfold serializeFansubFilename in Hd. rewrite Ht in Hd.
  destruct (part 1 parts) as [f|]; [| discriminate]. cbn [mbind option_bind] in Hd.
  destruct (truthyPart (part 5 parts)).
  - destruct (part 6 parts); cbn [mbind option_bind] in Hd; [| discriminate].
    now injection Hd as <-.
  - destruct (part 4 parts); cbn [mbind option_bind] in Hd; [| discriminate].
    now injection Hd as <-.
Qed.

(** X14: the title returned for a captured title that ends in a hyphen has
    lost its last two characters, whatever the character before the hyphen
    is (the title "Show-" comes back as "Sho"), and a captured title that is
    the hyphen alone comes back empty; a captured title that does not end
    in a hyphen is returned as it is. *)
Theorem hyphen_trim_drops_two (name : string) (parts : list (option string)) :
  exec fansubRegEx 7 name = Some parts ->
  (forall t c, part 2 parts = Some (t +:+ String c "-") ->
     exists d, parseFansubFilename name = Some (inr d) /\ title d = t)
  /\ (part 2 parts = Some "-" ->
      exists d, parseFansubFilename name = Some (inr d) /\ title d = "")
  /\ (forall ttl, part 2 parts = Some ttl -> lastChar ttl <> Some "-"%char ->
        exists d, parseFansubFilename name = Some (inr d) /\ title d = ttl).
Proof.
  intros Hexec. split; [| split].
  - intros t c Ht. destruct (parse_title name parts _ Hexec Ht) as (d & Hd & Hti).
    exists d. split; [exact Hd |]. rewrite Hti. apply trimHyphen_two.
  - intros Ht. destruct (parse_title name parts _ Hexec Ht) as (d & Hd & Hti).
    exists d. split; [exact Hd |]. rewrite Hti. reflexivity.
  - intros ttl Ht Hl. destruct (parse_title name parts _ Hexec Ht) as (d & Hd & Hti).
    exists d. split; [exact Hd |]. rewrite Hti. now apply trimHyphen_other.
Qed.

Lemma hyphen_trim_drops_two_witness :
  exists d, parseFansubFilename "[G] Show- 07.mkv" = Some (inr d) /\ title d = "Sho".
Proof.
  apply (proj1 (hyphen_trim_drops_two "[G] Show- 07.mkv"
                  [Some "[G] Show- 07."; Some "G"; Some "Show-"; None; Some "07";
                   None; None; Some "."] eq_refl) "Sho" "w"%char eq_refl).
Defined.

(** *** A finished series, end to end *)

Section Finished.

Variable remote : string -> Body -> option (num * option num).

(** X15: the whole invocation when the remote confirms the last episode:
    one entry, one candidate file, episode strings that are decimal
    numerals, [watched] in place and free of a file of that name.  The
    invocation returns; the series is no longer in the
    cache; no binding is written, whatever the file is called; the
    configuration is saved without the series; and the file is moved to
    [watched] all the same. *)
Theorem watchAnime_finishes_series (epName fileEpNumStr forcedEpNumStr : string)
    (workingDir : list string) (w w1 : World) (a : nat) (o : KitsuCacheItem)
    (n c : string) (p : num) (cnt : option num) :
  resolvedTo epName workingDir w w1 a o ->
  candidateFiles (fs w1) workingDir (fileTitleOf epName w1 o) fileEpNumStr = [n] ->
  isDecimal fileEpNumStr = true -> isDecimal forcedEpNumStr = true ->
  let req := request (optionsOf fileEpNumStr forcedEpNumStr n w1 a) o in
  remote req.1 req.2 = Some (p, cnt) ->
  completed p cnt = true ->
  lookupPath (fs w1) (pathJoin workingDir [n]) = Some (File c) ->
  lookupPath (fs w1) (pathJoin workingDir ["watched"]) = Some Dir ->
  lookupPath (fs w1) (pathJoin workingDir ["watched"; n]) = None ->
  exists w',
    watchAnime remote epName (fileEpNumStr, forcedEpNumStr) workingDir w = (Ret tt, w')
    /\ cache w'
       = List.filter (fun b => negb (hasLibID (libID o) (heap w') b)) (cache w1)
    /\ (a ∉ cache w')
    /\ fileBindings w' = fileBindings w1
    /\ disk w' = Some (omap (fun b => heap w' !! b) (cache w'), fileBindings w')
    /\ lookupPath (fs w') (pathJoin workingDir ["watched"; n]) = Some (File c)
    /\ lookupPath (fs w') (pathJoin workingDir [n]) = None.
Proof.
  intros Hres Hone _ _ req Hr Hc Hsrc Hdir Hdst.
  destruct (resolved_index epName workingDir w w1 a o Hres) as (_ & _ & Ha).
  pose proof Hres as (_ & _ & _ & Ho & _).
  rewrite (watchAnime_single remote epName fileEpNumStr forcedEpNumStr workingDir
             w w1 a o n Hres Hone).
  rewrite (saveAnimeProgress_run remote
             (optionsOf fileEpNumStr forcedEpNumStr n w1 a) (withCopy o w1) o
             (copy_lookup o w1)).
  fold req. rewrite Hr. unfold synchronised. rewrite Hc.
  set (w2 := afterCompletion (optionsOf fileEpNumStr forcedEpNumStr n w1 a) o
               (withCopy o w1) p cnt).
  assert (Hfs : fs w2 = fs w1) by reflexivity.
  rewrite (moveFileToWatchedDir_moves n workingDir w2 c)
    by (rewrite Hfs; assumption).
  eexists. split; [reflexivity |].
  cbn [heap cache fileBindings disk fs withFs].
  destruct (afterCompletion_evicted (optionsOf fileEpNumStr forcedEpNumStr n w1 a) o
              (withCopy o w1) p cnt) as (Hcache & Habsent & Hbind & Hdisk & _ & _).
  fold w2 in Hcache, Habsent, Hbind, Hdisk.
  split; [exact Hcache |].
  split.
  { intros Hin. apply (Habsent a o Hin); [| reflexivity].
    unfold w2, afterCompletion.
    cbn [heap withHeap withCache withTrace withDisk].
    rewrite (heap_frame_afterUpdate _ o (withCopy o w1) p cnt a)
      by (cbn; lia).
    unfold withCopy. cbn [heap withHeap]. now rewrite lookup_app_l. }
  split; [exact Hbind |].
  split; [exact Hdisk |].
  split.
  - apply lookupPath_reroot_new; rewrite Hfs; assumption.
  - apply lookupPath_reroot_old. unfold pathJoin. rewrite !length_app. cbn. lia.
Qed.

End Finished.

Lemma watchAnime_finishes_series_witness :
  exists w',
    watchAnime (Example.confirming (Some (Num 12))) "show" ("12", "") ["anime"]
      Example.ready = (Ret tt, w')
    /\ cache w'
       = List.filter (fun b => negb (hasLibID "101" (heap w') b)) [0; 1]
    /\ (0 ∉ cache w')
    /\ fileBindings w' = ∅
    /\ disk w' = Some (omap (fun b => heap w' !! b) (cache w'), fileBindings w')
    /\ lookupPath (fs w') ["anime"; "watched"; "[Group] Show Title - 12.mkv"]
       = Some (File "video-12")
    /\ lookupPath (fs w') ["anime"; "[Group] Show Title - 12.mkv"] = None.
Proof.
  apply (watchAnime_finishes_series (Example.confirming (Some (Num 12)))
           "show" "12" "" ["anime"] Example.ready Example.ready 0 Example.show
           "[Group] Show Title - 12.mkv" "video-12" (Num 12) (Some (Num 12))
           ready_resolved);
    reflexivity.
Defined.

(** ** Properties of the earlier revision *)

Lemma toLowerChar_idempotent (c : ascii) : toLowerChar (toLowerChar c) = toLowerChar c.
Proof. destruct c as [[] [] [] [] [] [] [] []]; reflexivity. Qed.

Lemma toLowerCase_idempotent (s : string) : toLowerCase (toLowerCase s) = toLowerCase s.
Proof.
  induction s as [|c s IH]; [reflexivity |].
  cbn [toLowerCase]. now rewrite toLowerChar_idempotent, IH.
Qed.

(** X16: the earlier filter keeps the lower-cased names of the regular
    files of the directory that contain "[subsplease]", the episode name
    and the episode syntax; what it returns is lower-cased text, not the
    names on disk. *)
Theorem filterSubsPleaseFiles_keeps (w : World) (dir : list string)
    (epName epNumSyntax : string) :
  isDirectory (fs w) dir = true ->
  exists names,
    WatchV1.filterSubsPleaseFiles dir epName epNumSyntax w = (Ret names, w)
    /\ (forall n, n ∈ names <->
          (exists m, regularFileIn (fs w) dir m /\ n = toLowerCase m)
          /\ includes n "[subsplease]" = true
          /\ includes n epName = true
          /\ includes n epNumSyntax = true)
    /\ (forall n, n ∈ names -> toLowerCase n = n).
Proof.
  intros Hdir. unfold WatchV1.filterSubsPleaseFiles. unfold mbind, M_bind.
  rewrite (readdirSync_directory w dir Hdir). eexists. split; [reflexivity |].
  assert (Hin : forall n,
    n ∈ (fun file => toLowerCase (name file))
          <$> List.filter isFile (omap (direntOf dir) (fs w)) <->
    exists m, regularFileIn (fs w) dir m /\ n = toLowerCase m).
  { intros n. rewrite list_elem_of_fmap. split.
    - intros (file & -> & Hf). exists (name file). split; [| reflexivity].
      apply regular_names. apply list_elem_of_fmap. eauto.
    - intros (m & Hm & ->). apply regular_names, list_elem_of_fmap in Hm
        as (file & -> & Hf). eauto. }
  split.
  - intros n. rewrite list_elem_of_In, filter_In, <- list_elem_of_In, Hin.
    rewrite !andb_true_iff. split.
    + intros (Hm & (H1 & H2) & H3). auto.
    + intros (Hm & H1 & H2 & H3). auto.
  - intros n Hn. apply list_elem_of_In, filter_In in Hn as [Hn _].
    apply list_elem_of_In, Hin in Hn as (m & _ & ->). apply toLowerCase_idempotent.
Qed.

Lemma filterSubsPleaseFiles_keeps_witness :
  exists names,
    WatchV1.filterSubsPleaseFiles ["anime"] "show" "- 07"
      (worldOfFs [(["anime"], Dir);
                  (["anime"; "[SubsPlease] Show - 07.mkv"], File "v")])
    = (Ret names,
       worldOfFs [(["anime"], Dir);
                  (["anime"; "[SubsPlease] Show - 07.mkv"], File "v")])
    /\ "[subsplease] show - 07.mkv" ∈ names.
Proof.
  destruct (filterSubsPleaseFiles_keeps
              (worldOfFs [(["anime"], Dir);
                          (["anime"; "[SubsPlease] Show - 07.mkv"], File "v")])
              ["anime"] "show" "- 07" eq_refl) as (names & Hrun & Hin & _).
  exists names. split; [exact Hrun |].
  apply Hin. repeat split; try reflexivity.
  exists "[SubsPlease] Show - 07.mkv". split; [| reflexivity].
  exists "v". repeat constructor.
Defined.



(** *** The title of a SubsPlease file *)

Lemma dropChars_app (pat s : string) : dropChars (String.length pat) (pat +:+ s) = s.
Proof. induction pat as [|c pat IH]; [reflexivity | exact IH]. Qed.

Lemma removeFirst_prefix (pat s : string) : removeFirst pat (pat +:+ s) = s.
Proof.
  destruct (pat +:+ s) as [|c r] eqn:E; cbn [removeFirst];
    rewrite <- E, (prefix_app pat s); apply dropChars_app.
Qed.

Lemma splitHeadStr_first (x : ascii) (sep u rest : string) :
  allChars (fun c => negb (Ascii.eqb c x)) u = true ->
  splitHeadStr (String x sep) (u +:+ String x sep +:+ rest) = u.
Proof.
  induction u as [|c u IH].
  - intros _. change (splitHeadStr (String x sep) (String x sep +:+ rest) = "").
    destruct (String x sep +:+ rest) as [|d r] eqn:E; cbn [splitHeadStr];
      rewrite <- E, (prefix_app (String x sep) rest); reflexivity.
  - cbn [allChars]. rewrite andb_true_iff, negb_true_iff. intros [Hc Hu].
    change (splitHeadStr (String x sep) (String c (u +:+ String x sep +:+ rest))
            = String c u).
    cbn [splitHeadStr String.prefix].
    destruct (ascii_dec x c) as [-> |].
    + rewrite Ascii.eqb_refl in Hc. discriminate.
    + f_equal. now apply IH.
Qed.

Lemma trimEnd_space (y : string) : trimEnd (y +:+ " ") = trimEnd y.
Proof.
  induction y as [|c y IH]; [reflexivity |].
  change (trimEnd (String c (y +:+ " ")) = trimEnd (String c y)).
  cbn [trimEnd]. now rewrite IH.
Qed.

Lemma trim_space (t : string) : trimEnd (trimStart (t +:+ " ")) = trimEnd (trimStart t).
Proof.
  induction t as [|c t IH]; [reflexivity |].
  change (trimEnd (trimStart (String c (t +:+ " "))) = trimEnd (trimStart (String c t))).
  cbn [trimStart]. destruct (isWhiteSpace c); [exact IH |].
  exact (trimEnd_space (String c t)).
Qed.

(** X18: [titleFromAnimeFileName] gives back the title a SubsPlease name
    was built from: for a title without a hyphen, the name made of the
    tag, a space, the title, " - ", the episode and anything after it has
    that title, trimmed. *)
Theorem titleFromAnimeFileName_recovers (t ep rest : string) :
  allChars (fun c => negb (Ascii.eqb c "-")) t = true ->
  titleFromAnimeFileName ("[subsplease] " +:+ t +:+ " - " +:+ ep +:+ rest) ep = trim t.
Proof.
  intros Ht. unfold titleFromAnimeFileName.
  change ("[subsplease] " +:+ t +:+ " - " +:+ ep +:+ rest)
    with ("[subsplease]" +:+ String " " (t +:+ " - " +:+ ep +:+ rest)).
  rewrite removeFirst_prefix.
  assert (E : String " " (t +:+ " - " +:+ ep +:+ rest)
              = (String " " (t +:+ " ")) +:+ String "-" (" " +:+ ep) +:+ rest).
  { change (String " " (t +:+ " - " +:+ ep +:+ rest)
            = String " " ((t +:+ " ") +:+ String "-" (" " +:+ ep) +:+ rest)).
    f_equal. rewrite !append_assoc. reflexivity. }
  change ("- " +:+ ep) with (String "-" (" " +:+ ep)).
  rewrite E, splitHeadStr_first.
  - unfold trim. change (trimStart (String " " (t +:+ " "))) with (trimStart (t +:+ " ")).
    apply trim_space.
  - change (allChars (fun c => negb (Ascii.eqb c "-")) (t +:+ " ") = true).
    rewrite allChars_app, Ht. reflexivity.
Qed.

Lemma titleFromAnimeFileName_recovers_witness :
  titleFromAnimeFileName
    ("[subsplease] " +:+ "show title" +:+ " - " +:+ "07" +:+ " (1080p) [abc].mkv") "07"
  = trim "show title".
Proof.
  apply (titleFromAnimeFileName_recovers "show title" "07" " (1080p) [abc].mkv").
  reflexivity.
Defined.

Lemma splitHeadStr_second (y x : ascii) (sep u rest : string) :
  y <> x ->
  allChars (fun c => negb (Ascii.eqb c x)) u = true ->
  splitHeadStr (String y (String x sep)) (u +:+ String y (String x sep) +:+ rest) = u.
Proof.
  intros Hyx. induction u as [|c u IH].
  - intros _.
    change (splitHeadStr (String y (String x sep)) (String y (String x sep) +:+ rest) = "").
    destruct (String y (String x sep) +:+ rest) as [|d r] eqn:E; cbn [splitHeadStr];
      rewrite <- E, (prefix_app (String y (String x sep)) rest); reflexivity.
  - cbn [allChars]. rewrite andb_true_iff, negb_true_iff. intros [Hc Hu].
    change (splitHeadStr (String y (String x sep))
              (String c (u +:+ String y (String x sep) +:+ rest)) = String c u).
    cbn [splitHeadStr].
    assert (Hp : String.prefix (String y (String x sep))
                   (String c (u +:+ String y (String x sep) +:+ rest)) = false).
    { cbn [String.prefix]. destruct (ascii_dec y c) as [_|]; [| reflexivity].
      destruct u as [|d u].
      - change (String.prefix (String x sep) (String y (String x sep +:+ rest)) = false).
        cbn [String.prefix]. destruct (ascii_dec x y) as [E|]; [| reflexivity].
        now subst.
      - change (String.prefix (String x sep)
                  (String d (u +:+ String y (String x sep) +:+ rest)) = false).
        cbn [String.prefix]. destruct (ascii_dec x d) as [E|]; [| reflexivity].
        subst d. cbn [allChars] in Hu. rewrite Ascii.eqb_refl in Hu. discriminate. }
    rewrite Hp. f_equal. now apply IH.
Qed.

(** X19: [stripFansubInfo] gives back the title of a SubsPlease name: for
    a title without an opening parenthesis, the name made of the tag, a
    space, the title, " (1080p)" and anything after it is stripped to that
    title, trimmed. *)
Theorem stripFansubInfo_recovers (t rest : string) :
  allChars (fun c => negb (Ascii.eqb c "(")) t = true ->
  stripFansubInfo ("[subsplease] " +:+ t +:+ " (1080p)" +:+ rest) = trim t.
Proof.
  intros Ht. unfold stripFansubInfo.
  change ("[subsplease] " +:+ t +:+ " (1080p)" +:+ rest)
    with ("[subsplease]" +:+ String " " (t +:+ " (1080p)" +:+ rest)).
  rewrite removeFirst_prefix.
  change (String " " (t +:+ " (1080p)" +:+ rest))
    with (String " " t +:+ String " " (String "(" "1080p)") +:+ rest).
  change " (1080p)" with (String " " (String "(" "1080p)")).
  rewrite splitHeadStr_second.
  - reflexivity.
  - discriminate.
  - exact Ht.
Qed.

Lemma stripFansubInfo_recovers_witness :
  stripFansubInfo ("[subsplease] " +:+ "show title - 07" +:+ " (1080p)" +:+ " [abc].mkv")
  = trim "show title - 07".
Proof.
  apply (stripFansubInfo_recovers "show title - 07" " [abc].mkv"). reflexivity.
Defined.

(** *** Resolution in the earlier revision *)



